(** * Chrono core: pose algebra, triad constructor and disc-terrain contact

    A shallow embedding of [chrono/core/ChCoordsys.h] and of
    [ChTire::disc_terrain_contact] ([chrono_vehicle/wheeled_vehicle/ChTire.cpp]).
    The template scalar [Real] is interpreted by the real numbers, so every
    statement below is about exact arithmetic. *)

From Stdlib Require Import Reals Lra Lia Bool Arith RNsatz.

Open Scope R_scope.

(** ** Vectors (chrono/core/ChVector.h) *)

Record ChVector : Type := Vector { x : R; y : R; z : R }.

Definition VNULL : ChVector := Vector 0 0 0.

(** Modelled from the spec: ChVector.h is not part of the sources at hand;
    the Vector3 component of the specification lists "arithmetic, dot/cross,
    normalization".  [Vadd] is [operator+]. *)
Definition Vadd (a b : ChVector) : ChVector :=
  Vector (x a + x b) (y a + y b) (z a + z b).

(** Modelled from the spec: [operator-] of ChVector. *)
Definition Vsub (a b : ChVector) : ChVector :=
  Vector (x a - x b) (y a - y b) (z a - z b).

(** Modelled from the spec: scalar times vector, [s * v]. *)
Definition Vmul (s : R) (v : ChVector) : ChVector :=
  Vector (s * x v) (s * y v) (s * z v).

(** Modelled from the spec: vector divided by a scalar, [v / s]. *)
Definition Vdiv (v : ChVector) (s : R) : ChVector :=
  Vector (x v / s) (y v / s) (z v / s).

(** Modelled from the spec: the dot product. *)
Definition Vdot (a b : ChVector) : R :=
  x a * x b + y a * y b + z a * z b.

(** Modelled from the spec: the cross product ([Vcross], and [operator%]
    between vectors). *)
Definition Vcross (a b : ChVector) : ChVector :=
  Vector (y a * z b - z a * y b)
         (z a * x b - x a * z b)
         (x a * y b - y a * x b).

(** Modelled from the spec: squared Euclidean length and length. *)
Definition Length2 (v : ChVector) : R := Vdot v v.
Definition Length (v : ChVector) : R := sqrt (Length2 v).

(** Modelled from the spec: [Normalize] rescales the vector to unit length
    (step 1 of the triad algorithm: "ux = normalize(xdir - origin)").  What it
    does with a vector of length zero is left open by the specification; the
    statements below only normalise vectors of positive length. *)
Definition Normalize (v : ChVector) : ChVector := Vmul (1 / Length v) v.

(** ** Quaternions (chrono/core/ChQuaternion.h) *)

Record ChQuaternion : Type := Quaternion { e0 : R; e1 : R; e2 : R; e3 : R }.

Definition QUNIT : ChQuaternion := Quaternion 1 0 0 0.

Definition Qlength2 (q : ChQuaternion) : R :=
  e0 q * e0 q + e1 q * e1 q + e2 q * e2 q + e3 q * e3 q.

(** The invariant of a quaternion used as a rotation. *)
Definition Qunit (q : ChQuaternion) : Prop := Qlength2 q = 1.

(** Modelled from the spec: ChQuaternion.h is not part of the sources at hand.
    [Qcross] is the quaternion (Hamilton) product, written [a * b] and
    [a % b] in ChCoordsys.h ("this.orientation * other.orientation"). *)
Definition Qcross (a b : ChQuaternion) : ChQuaternion :=
  Quaternion
    (e0 a * e0 b - e1 a * e1 b - e2 a * e2 b - e3 a * e3 b)
    (e0 a * e1 b + e1 a * e0 b + e2 a * e3 b - e3 a * e2 b)
    (e0 a * e2 b - e1 a * e3 b + e2 a * e0 b + e3 a * e1 b)
    (e0 a * e3 b + e1 a * e2 b - e2 a * e1 b + e3 a * e0 b).

(** Modelled from the spec: [GetConjugate]. *)
Definition GetConjugate (q : ChQuaternion) : ChQuaternion :=
  Quaternion (e0 q) (- e1 q) (- e2 q) (- e3 q).

(** A vector as a quaternion with scalar part zero, and back. *)
Definition Qpure (v : ChVector) : ChQuaternion := Quaternion 0 (x v) (y v) (z v).
Definition GetVector (q : ChQuaternion) : ChVector := Vector (e1 q) (e2 q) (e3 q).

(** Modelled from the spec: [Rotate], as documented at
    [TransformLocalToParent]: "parent = origin + q*[0,(local)]*q'". *)
Definition Rotate (q : ChQuaternion) (v : ChVector) : ChVector :=
  GetVector (Qcross (Qcross q (Qpure v)) (GetConjugate q)).

(** Modelled from the spec: [RotateBack], as documented at
    [TransformParentToLocal]: "local = q'*[0,(parent-origin)]*q". *)
Definition RotateBack (q : ChQuaternion) (v : ChVector) : ChVector :=
  GetVector (Qcross (Qcross (GetConjugate q) (Qpure v)) q).

(** ** Coordinate systems (chrono/core/ChCoordsys.h) *)

Record ChCoordsys : Type := Coordsys { pos : ChVector; rot : ChQuaternion }.

(** Default constructor: the identity frame. *)
Definition CSYSNORM : ChCoordsys := Coordsys VNULL QUNIT.

Module Point.
(** [ChVector TransformLocalToParent(const ChVector& local) const] *)
Definition TransformLocalToParent (A : ChCoordsys) (local : ChVector) : ChVector :=
  Vadd (pos A) (Rotate (rot A) local).

(** [ChVector TransformParentToLocal(const ChVector& parent) const] *)
Definition TransformParentToLocal (A : ChCoordsys) (parent : ChVector) : ChVector :=
  RotateBack (rot A) (Vsub parent (pos A)).
End Point.

(** [ChCoordsys TransformLocalToParent(const ChCoordsys& local) const] *)
Definition TransformLocalToParent (A local : ChCoordsys) : ChCoordsys :=
  Coordsys (Point.TransformLocalToParent A (pos local)) (Qcross (rot A) (rot local)).

(** [ChCoordsys TransformParentToLocal(const ChCoordsys& parent) const] *)
Definition TransformParentToLocal (A parent : ChCoordsys) : ChCoordsys :=
  Coordsys (Point.TransformParentToLocal A (pos parent))
           (Qcross (GetConjugate (rot A)) (rot parent)).

(** [operator*]: [A * Fb = A.TransformLocalToParent(Fb)]. *)
Definition csys_mul (A Fb : ChCoordsys) : ChCoordsys := TransformLocalToParent A Fb.

(** [operator>>]: [A >> Fb = Fb.TransformLocalToParent(A)]. *)
Definition csys_shr (A Fb : ChCoordsys) : ChCoordsys := TransformLocalToParent Fb A.

(** ** Comparisons of reals as the booleans of the C++ conditions *)

Definition Rleb (a b : R) : bool := if Rle_dec a b then true else false.
Definition Rltb (a b : R) : bool := if Rlt_dec a b then true else false.
Definition Rgeb (a b : R) : bool := if Rge_dec a b then true else false.
Definition Rgtb (a b : R) : bool := if Rgt_dec a b then true else false.

(** ** Construction from a triad (ChCoordsys.h, lines 56-105) *)

(** [static int getMaxIdx(Real x0, Real x1, Real x2)] *)
Definition getMaxIdx (x0 x1 x2 : R) : nat :=
  if Rgeb x0 x1 && Rgeb x0 x2 then 0%nat
  else if Rgeb x1 x2 then 1%nat
  else 2%nat.

(** The local array [Real R[3][3]]: entry [i j] is row [i], column [j], and
    the columns are [ux], [uy], [uz]. *)
Definition Rmat (ux uy uz : ChVector) (i j : nat) : R :=
  let col := match j with 0%nat => ux | 1%nat => uy | _ => uz end in
  match i with 0%nat => x col | 1%nat => y col | _ => z col end.

(** The local array [Real e[4]] and an assignment [e[i] = v]. *)
Definition Rarray : Type := nat -> R.
Definition store (e : Rarray) (i : nat) (v : R) : Rarray :=
  fun k => if Nat.eqb k i then v else e k.

(** The orthonormal vectors of the first part of the constructor. *)
Definition triad_ux (origin xdir : ChVector) : ChVector :=
  Normalize (Vsub xdir origin).
Definition triad_uz (origin xdir ydir : ChVector) : ChVector :=
  Normalize (Vcross (triad_ux origin xdir) (Vsub ydir origin)).
Definition triad_uy (origin xdir ydir : ChVector) : ChVector :=
  Normalize (Vcross (triad_uz origin xdir ydir) (triad_ux origin xdir)).

(** The conversion of the matrix to the four components [e], both branches.
    [e_init] stands for the content of the array before the assignments; each
    branch assigns all four entries. *)
Definition triad_e (Rm : nat -> nat -> R) (e_init : Rarray) : Rarray :=
  let trace := Rm 0%nat 0%nat + Rm 1%nat 1%nat + Rm 2%nat 2%nat in
  if Rgeb trace 0 then
    let s := sqrt (1 + trace) * 2 in
    let e := store e_init 0 (s / 4) in
    let e := store e 1 ((Rm 1%nat 2%nat - Rm 2%nat 1%nat) / s) in
    let e := store e 2 ((Rm 2%nat 0%nat - Rm 0%nat 2%nat) / s) in
    store e 3 ((Rm 0%nat 1%nat - Rm 1%nat 0%nat) / s)
  else
    let i0 := getMaxIdx (Rm 0%nat 0%nat) (Rm 1%nat 1%nat) (Rm 2%nat 2%nat) in
    let i1 := ((i0 + 1) mod 3)%nat in
    let i2 := ((i1 + 1) mod 3)%nat in
    let s := sqrt (1 + Rm i0 i0 - Rm i1 i1 - Rm i2 i2) * 2 in
    let e := store e_init 0 ((Rm i2 i1 - Rm i1 i2) / s) in
    let e := store e (i0 + 1) (s / 4) in
    let e := store e (i1 + 1) ((Rm i0 i1 + Rm i1 i0) / s) in
    store e (i2 + 1) ((Rm i0 i2 + Rm i2 i0) / s).

(** [rot.Set(e[0], e[1], e[2], e[3])] *)
Definition Qof (e : Rarray) : ChQuaternion :=
  Quaternion (e 0%nat) (e 1%nat) (e 2%nat) (e 3%nat).

(** [explicit ChCoordsys(const ChVector& origin, const ChVector& xdir,
    const ChVector& ydir)] *)
Definition ChCoordsys_triad (origin xdir ydir : ChVector) : ChCoordsys :=
  let ux := triad_ux origin xdir in
  let uz := triad_uz origin xdir ydir in
  let uy := triad_uy origin xdir ydir in
  Coordsys origin (Qof (triad_e (Rmat ux uy uz) (fun _ => 0))).

(** The matrix [R] and the [trace] of the constructor, for a given triad. *)
Definition triad_R (origin xdir ydir : ChVector) (i j : nat) : R :=
  Rmat (triad_ux origin xdir) (triad_uy origin xdir ydir)
       (triad_uz origin xdir ydir) i j.
Definition triad_trace (origin xdir ydir : ChVector) : R :=
  triad_R origin xdir ydir 0 0 + triad_R origin xdir ydir 1 1
  + triad_R origin xdir ydir 2 2.

(** The precondition of the constructor: "ydir-origin lies in x-y plane (not
    co-linear with x-origin)". *)
Definition triad_pre (origin xdir ydir : ChVector) : Prop :=
  Vsub xdir origin <> VNULL /\
  Vcross (Vsub xdir origin) (Vsub ydir origin) <> VNULL.

(** ** Disc-terrain contact (ChTire.cpp, lines 48-94) *)

(** The terrain is consulted through two queries only. *)
Record ChTerrain : Type := Terrain {
  GetHeight : R -> R -> R;
  GetNormal : R -> R -> ChVector
}.

(** How a call ends: by [return], with the values of the two reference
    parameters at that moment, or in the failure of the [assert]. *)
Inductive outcome : Type :=
| Aborted
| Returned (ret : bool) (contact : ChCoordsys) (depth : R).

(** [assert(c)]: nothing when NDEBUG is defined, abort on a false condition
    otherwise. *)
Definition assert (NDEBUG : bool) (c : bool) (k : outcome) : outcome :=
  if NDEBUG then k else if c then k else Aborted.

Section DiscTerrainContact.

(** [ChMatrix33<> rot; rot.Set_A_axis(X, Y, Z); rot.Get_A_quaternion()]:
    ChMatrix33 is not part of the sources at hand, the conversion is a
    parameter of the model. *)
Variable A_axis_quaternion : ChVector -> ChVector -> ChVector -> ChQuaternion.

(** [bool ChTire::disc_terrain_contact(terrain, disc_center, disc_normal,
    disc_radius, ChCoordsys<>& contact, double& depth)]; [contact] and
    [depth] are the values the two references hold at the call. *)
Definition disc_terrain_contact (NDEBUG : bool) (terrain : ChTerrain)
           (disc_center disc_normal : ChVector) (disc_radius : R)
           (contact : ChCoordsys) (depth : R) : outcome :=
  let hc := GetHeight terrain (x disc_center) (y disc_center) in
  if Rleb (z disc_center) hc || Rgeb (z disc_center) (hc + disc_radius) then
    Returned false contact depth
  else
    let dir1 := Vcross disc_normal (Vector 0 0 1) in
    let sinTilt2 := Length2 dir1 in
    if Rltb sinTilt2 (1 / 1000) then Returned false contact depth
    else
      let ptD :=
        Vadd disc_center
             (Vmul disc_radius
                   (Vcross disc_normal (Vdiv dir1 (sqrt sinTilt2)))) in
      let hp := GetHeight terrain (x ptD) (y ptD) in
      if Rgtb (z ptD) hp then Returned false contact depth
      else
        let normal := GetNormal terrain (x ptD) (y ptD) in
        let longitudinal := Normalize (Vcross disc_normal normal) in
        let lateral := Vcross normal longitudinal in
        let contact' :=
          Coordsys ptD (A_axis_quaternion longitudinal lateral normal) in
        let depth' := Vdot (Vector 0 0 (hp - z ptD)) normal in
        assert NDEBUG (Rgtb depth' 0) (Returned true contact' depth').

End DiscTerrainContact.

(** ** Auxiliary notions for the statements *)

(** Unit first and third columns, orthogonal, and the second column their
    cross product: the columns of a proper rotation. *)
Definition rotation_columns (ux uy uz : ChVector) : Prop :=
  Length2 ux = 1 /\ Length2 uz = 1 /\ Vdot uz ux = 0 /\ uy = Vcross uz ux.

(** What the conversion to a quaternion uses of a rotation matrix: the
    squares of the entries add up to 3, and each diagonal entry is its own
    cofactor. *)
Definition rotation_matrix (Rm : nat -> nat -> R) : Prop :=
  let R00 := Rm 0%nat 0%nat in let R01 := Rm 0%nat 1%nat in
  let R02 := Rm 0%nat 2%nat in let R10 := Rm 1%nat 0%nat in
  let R11 := Rm 1%nat 1%nat in let R12 := Rm 1%nat 2%nat in
  let R20 := Rm 2%nat 0%nat in let R21 := Rm 2%nat 1%nat in
  let R22 := Rm 2%nat 2%nat in
  R00 * R00 + R10 * R10 + R20 * R20
  + (R01 * R01 + R11 * R11 + R21 * R21)
  + (R02 * R02 + R12 * R12 + R22 * R22) = 3 /\
  R00 = R11 * R22 - R12 * R21 /\
  R11 = R22 * R00 - R20 * R02 /\
  R22 = R00 * R11 - R01 * R10.

(** The formula of the specification for the branch [trace >= 0], word for
    word: "s = 2*sqrt(1+trace); e0 = s/4; e1 = (R21-R12)/s; e2 = (R02-R20)/s;
    e3 = (R10-R01)/s".  It is compared below with what [triad_e] computes. *)
Definition spec_trace_nonneg (Rm : nat -> nat -> R) : ChQuaternion :=
  let trace := Rm 0%nat 0%nat + Rm 1%nat 1%nat + Rm 2%nat 2%nat in
  let s := 2 * sqrt (1 + trace) in
  Quaternion (s / 4)
             ((Rm 2%nat 1%nat - Rm 1%nat 2%nat) / s)
             ((Rm 0%nat 2%nat - Rm 2%nat 0%nat) / s)
             ((Rm 1%nat 0%nat - Rm 0%nat 1%nat) / s).

(** Three poses with unit quaternions that are not the identity. *)
Definition csys_sample1 : ChCoordsys :=
  Coordsys (Vector 5 6 7) (Quaternion (1/2) (1/2) (1/2) (1/2)).
Definition csys_sample2 : ChCoordsys :=
  Coordsys (Vector 4 1 3) (Quaternion (1/2) (-1/2) (1/2) (-1/2)).
Definition csys_sample3 : ChCoordsys :=
  Coordsys (Vector 1 5 1) (Quaternion 0 (3/5) 0 (4/5)).

(** A flat terrain at height 0, with the vertical as its normal. *)
Definition flat_terrain : ChTerrain :=
  Terrain (fun _ _ => 0) (fun _ _ => Vector 0 0 1).

(** ** The other members of ChCoordsys (ChCoordsys.h) *)

(** [ChVector TransformDirectionLocalToParent(const ChVector& local) const] *)
Definition TransformDirectionLocalToParent (A : ChCoordsys) (local : ChVector) : ChVector :=
  Rotate (rot A) local.

(** [ChVector TransformDirectionParentToLocal(const ChVector& parent) const] *)
Definition TransformDirectionParentToLocal (A : ChCoordsys) (parent : ChVector) : ChVector :=
  RotateBack (rot A) parent.

(** [void ConcatenatePreTransformation(const ChCoordsys& T)]: the new value
    of [*this]. *)
Definition ConcatenatePreTransformation (this T : ChCoordsys) : ChCoordsys :=
  Coordsys (Point.TransformLocalToParent T (pos this)) (Qcross (rot T) (rot this)).

(** [void ConcatenatePostTransformation(const ChCoordsys& T)]: the new value
    of [*this]. *)
Definition ConcatenatePostTransformation (this T : ChCoordsys) : ChCoordsys :=
  Coordsys (Point.TransformLocalToParent this (pos T)) (Qcross (rot this) (rot T)).

(** [operator>>=(const ChVector& D)]: [this->pos += D]. *)
Definition shr_assign_vector (this : ChCoordsys) (D : ChVector) : ChCoordsys :=
  Coordsys (Vadd (pos this) D) (rot this).

(** [operator>>=(const ChQuaternion& R)]: [pos = R.Rotate(pos);
    rot = R * rot]. *)
Definition shr_assign_quaternion (this : ChCoordsys) (Rq : ChQuaternion) : ChCoordsys :=
  Coordsys (Rotate Rq (pos this)) (Qcross Rq (rot this)).

(** [ChCoordsys operator*(const ChVector& Fa, const ChCoordsys& Fb)]:
    a copy of [Fb] with [res.pos += Fa]. *)
Definition vector_mul_csys (Fa : ChVector) (Fb : ChCoordsys) : ChCoordsys :=
  Coordsys (Vadd (pos Fb) Fa) (rot Fb).

(** [ChCoordsys operator*(const ChQuaternion& Fa, const ChCoordsys& Fb)] *)
Definition quaternion_mul_csys (Fa : ChQuaternion) (Fb : ChCoordsys) : ChCoordsys :=
  Coordsys (Rotate Fa (pos Fb)) (Qcross Fa (rot Fb)).

(** [void Force2D()]: [pos.z() = 0; rot.e1() = 0; rot.e2() = 0]. *)
Definition Force2D (A : ChCoordsys) : ChCoordsys :=
  Coordsys (Vector (x (pos A)) (y (pos A)) 0)
           (Quaternion (e0 (rot A)) 0 0 (e3 (rot A))).

(** Modelled from the spec: [ChQuaternion::SetVector] is not part of the
    sources at hand; it assigns the three components of the vector part. *)
Definition SetVector (q : ChQuaternion) (v : ChVector) : ChQuaternion :=
  Quaternion (e0 q) (x v) (y v) (z v).

(** The range of [int]. *)
Definition INT_MIN : Z := (-2147483648)%Z.
Definition INT_MAX : Z := 2147483647%Z.
Definition in_int (n : Z) : bool := ((INT_MIN <=? n) && (n <=? INT_MAX))%Z.

(** The local [steps] of [Cycle]: [(n - 3 * n) % 3] for a negative [n],
    [n % 3] otherwise, with the remainder of C++ (truncated division).
    There is no value where [3 * n] or [n - 3 * n] leaves the range of
    [int]. *)
Definition Cycle_steps (n : Z) : option Z :=
  if (n <? 0)%Z then
    if in_int (3 * n) && in_int (n - 3 * n)
    then Some (Z.rem (n - 3 * n) 3)
    else None
  else Some (Z.rem n 3).

(** [ChCoordsys& Cycle(int n)]: the new value of [*this]. *)
Definition Cycle (A : ChCoordsys) (n : Z) : option ChCoordsys :=
  match Cycle_steps n with
  | None => None
  | Some steps =>
      let r := rot A in
      let r := if (steps =? 1)%Z
               then SetVector r (Vector (e3 r) (e1 r) (e2 r)) else r in
      let r := if (steps =? 2)%Z
               then SetVector r (Vector (e2 r) (e3 r) (e1 r)) else r in
      Some (Coordsys (pos A) r)
  end.

(** The arguments of [Cycle] for which no intermediate result overflows. *)
Definition Cycle_safe (n : Z) : Prop := (-715827882 <= n <= INT_MAX)%Z.

(** A pose in the plane: no height, rotation about the vertical only. *)
Definition planar (A : ChCoordsys) : Prop :=
  z (pos A) = 0 /\ e1 (rot A) = 0 /\ e2 (rot A) = 0.

(** The argument of [getMaxIdx] at a given position. *)
Definition arg3 (x0 x1 x2 : R) (i : nat) : R :=
  match i with 0%nat => x0 | 1%nat => x1 | _ => x2 end.

(** The divisor [s] of the conversion, in the branch taken. *)
Definition triad_s (Rm : nat -> nat -> R) : R :=
  let trace := Rm 0%nat 0%nat + Rm 1%nat 1%nat + Rm 2%nat 2%nat in
  if Rgeb trace 0 then sqrt (1 + trace) * 2
  else
    let i0 := getMaxIdx (Rm 0%nat 0%nat) (Rm 1%nat 1%nat) (Rm 2%nat 2%nat) in
    let i1 := ((i0 + 1) mod 3)%nat in
    let i2 := ((i1 + 1) mod 3)%nat in
    sqrt (1 + Rm i0 i0 - Rm i1 i1 - Rm i2 i2) * 2.

(** The entry of [e] that receives [s / 4]: 0 in the first branch,
    [i0 + 1] in the second. *)
Definition triad_slot (Rm : nat -> nat -> R) : nat :=
  let trace := Rm 0%nat 0%nat + Rm 1%nat 1%nat + Rm 2%nat 2%nat in
  if Rgeb trace 0 then 0%nat
  else (getMaxIdx (Rm 0%nat 0%nat) (Rm 1%nat 1%nat) (Rm 2%nat 2%nat) + 1)%nat.

(** The point [ptD] of [disc_terrain_contact], the lowest point of the
    disc. *)
Definition disc_lowest_point (disc_center disc_normal : ChVector)
           (disc_radius : R) : ChVector :=
  let dir1 := Vcross disc_normal (Vector 0 0 1) in
  let sinTilt2 := Length2 dir1 in
  Vadd disc_center
       (Vmul disc_radius (Vcross disc_normal (Vdiv dir1 (sqrt sinTilt2)))).

(** A quaternion multiplied by a scalar, component by component. *)
Definition Qscale (k : R) (q : ChQuaternion) : ChQuaternion :=
  Quaternion (k * e0 q) (k * e1 q) (k * e2 q) (k * e3 q).

(** * Pose algebra *)

Ltac unfold_algebra :=
  unfold TransformLocalToParent, TransformParentToLocal,
    Point.TransformLocalToParent, Point.TransformParentToLocal,
    Rotate, RotateBack, GetVector, Qpure, GetConjugate, Qcross,
    Vadd, Vsub, Vmul, Vdiv, Vdot, Vcross; simpl.

Ltac componentwise := unfold_algebra; f_equal; try ring.

Ltac unit_quaternion := unfold Qunit, Qlength2; simpl; lra.

Lemma Vadd_assoc (a b c : ChVector) : Vadd (Vadd a b) c = Vadd a (Vadd b c).
Proof. componentwise. Qed.

Lemma Qcross_assoc (a b c : ChQuaternion) :
  Qcross (Qcross a b) c = Qcross a (Qcross b c).
Proof. componentwise. Qed.

Lemma Qlength2_Qcross (a b : ChQuaternion) :
  Qlength2 (Qcross a b) = Qlength2 a * Qlength2 b.
Proof. unfold Qlength2, Qcross; simpl; ring. Qed.

Lemma Qunit_Qcross (a b : ChQuaternion) : Qunit a -> Qunit b -> Qunit (Qcross a b).
Proof.
  unfold Qunit; intros Ha Hb.
  rewrite Qlength2_Qcross, Ha, Hb; ring.
Qed.

Lemma Rotate_Vadd (q : ChQuaternion) (u v : ChVector) :
  Rotate q (Vadd u v) = Vadd (Rotate q u) (Rotate q v).
Proof. componentwise. Qed.

Lemma GetConjugate_Qcross (a b : ChQuaternion) :
  GetConjugate (Qcross a b) = Qcross (GetConjugate b) (GetConjugate a).
Proof. componentwise. Qed.

Lemma Qcross_QUNIT_l (q : ChQuaternion) : Qcross QUNIT q = q.
Proof. destruct q; componentwise. Qed.

Lemma Qcross_QUNIT_r (q : ChQuaternion) : Qcross q QUNIT = q.
Proof. destruct q; componentwise. Qed.

Lemma Qcross_GetConjugate_l (q : ChQuaternion) :
  Qunit q -> Qcross (GetConjugate q) q = QUNIT.
Proof.
  unfold Qunit, Qlength2. intros Hq. unfold QUNIT. rewrite <- Hq.
  componentwise.
Qed.

Lemma GetVector_Qpure (v : ChVector) : GetVector (Qpure v) = v.
Proof. now destruct v. Qed.

(** The product [q * (0, v) * q'] has scalar part zero: it is the pure
    quaternion of the rotated vector. *)
Lemma Qpure_Rotate (q : ChQuaternion) (v : ChVector) :
  Qpure (Rotate q v) = Qcross (Qcross q (Qpure v)) (GetConjugate q).
Proof. componentwise. Qed.

Lemma Rotate_Qcross (a b : ChQuaternion) (v : ChVector) :
  Rotate (Qcross a b) v = Rotate a (Rotate b v).
Proof.
  unfold Rotate at 1 2. rewrite Qpure_Rotate, GetConjugate_Qcross.
  now rewrite !Qcross_assoc.
Qed.

Lemma Vmul_1 (v : ChVector) : Vmul 1 v = v.
Proof. destruct v; unfold Vmul; simpl; f_equal; ring. Qed.

Lemma RotateBack_Rotate (q : ChQuaternion) (v : ChVector) :
  Qunit q -> RotateBack q (Rotate q v) = v.
Proof.
  intros Hq. unfold RotateBack. rewrite Qpure_Rotate.
  rewrite <- !Qcross_assoc, (Qcross_GetConjugate_l q Hq), Qcross_QUNIT_l.
  rewrite Qcross_assoc, (Qcross_GetConjugate_l q Hq), Qcross_QUNIT_r.
  apply GetVector_Qpure.
Qed.

Lemma Vsub_Vadd_cancel (p v : ChVector) : Vsub (Vadd p v) p = v.
Proof. destruct p, v; unfold Vsub, Vadd; simpl; f_equal; ring. Qed.

(** Composition is associative whatever the norms, since [Rotate] is the
    product [q * (0, v) * q'] itself. *)
Lemma compose_assoc_any (A B C : ChCoordsys) :
  TransformLocalToParent (TransformLocalToParent A B) C
  = TransformLocalToParent A (TransformLocalToParent B C).
Proof.
  unfold TransformLocalToParent, Point.TransformLocalToParent; simpl.
  rewrite Rotate_Qcross, Rotate_Vadd, Vadd_assoc, Qcross_assoc.
  reflexivity.
Qed.

(** C1: [A.TransformLocalToParent(B)] is the pose whose position is
    [A.TransformLocalToParent(B.pos) = A.pos + A.rot.Rotate(B.pos)] and whose
    orientation is the quaternion product [A.rot * B.rot]; this holds for
    every pair of poses, of unit norm or not. *)
Theorem TransformLocalToParent_spec (A B : ChCoordsys) :
  pos (TransformLocalToParent A B) = Point.TransformLocalToParent A (pos B) /\
  Point.TransformLocalToParent A (pos B) = Vadd (pos A) (Rotate (rot A) (pos B)) /\
  rot (TransformLocalToParent A B) = Qcross (rot A) (rot B).
Proof. repeat split. Qed.

(** C7: for a pose [A] with unit-norm orientation and every point [p],
    [A.TransformParentToLocal(A.TransformLocalToParent(p)) = p]. *)
Theorem TransformParentToLocal_LocalToParent (A : ChCoordsys) (p : ChVector) :
  Qunit (rot A) ->
  Point.TransformParentToLocal A (Point.TransformLocalToParent A p) = p.
Proof.
  intros HA.
  unfold Point.TransformParentToLocal, Point.TransformLocalToParent.
  rewrite Vsub_Vadd_cancel. now apply RotateBack_Rotate.
Qed.

Lemma TransformParentToLocal_LocalToParent_witness :
  Qunit (rot csys_sample1) /\
  Point.TransformParentToLocal csys_sample1
    (Point.TransformLocalToParent csys_sample1 (Vector 2 3 4)) = Vector 2 3 4.
Proof.
  split.
  - unit_quaternion.
  - apply (TransformParentToLocal_LocalToParent csys_sample1 (Vector 2 3 4)).
    unit_quaternion.
Defined.

(** C8: composition of poses is associative: for poses [A], [B], [C] with
    unit-norm orientations,
    [(A.TransformLocalToParent(B)).TransformLocalToParent(C)] equals
    [A.TransformLocalToParent(B.TransformLocalToParent(C))], that is
    [(A * B) * C = A * (B * C)]. *)
Theorem TransformLocalToParent_assoc (A B C : ChCoordsys) :
  Qunit (rot A) -> Qunit (rot B) -> Qunit (rot C) ->
  TransformLocalToParent (TransformLocalToParent A B) C
  = TransformLocalToParent A (TransformLocalToParent B C) /\
  csys_mul (csys_mul A B) C = csys_mul A (csys_mul B C).
Proof.
  intros _ _ _. split; apply compose_assoc_any.
Qed.

Lemma TransformLocalToParent_assoc_witness :
  (Qunit (rot csys_sample1) /\ Qunit (rot csys_sample2) /\
   Qunit (rot csys_sample3)) /\
  TransformLocalToParent (TransformLocalToParent csys_sample1 csys_sample2)
                         csys_sample3
  = TransformLocalToParent csys_sample1
      (TransformLocalToParent csys_sample2 csys_sample3).
Proof.
  split.
  - repeat split; unit_quaternion.
  - apply (TransformLocalToParent_assoc csys_sample1 csys_sample2 csys_sample3);
      unit_quaternion.
Defined.

(** * Construction from a triad *)

Lemma Rgeb_true (a b : R) : Rgeb a b = true <-> a >= b.
Proof. unfold Rgeb; destruct (Rge_dec a b); split; intros; try lra; congruence. Qed.

Lemma Rgeb_false (a b : R) : Rgeb a b = false <-> a < b.
Proof. unfold Rgeb; destruct (Rge_dec a b); split; intros; try lra; congruence. Qed.

Lemma Rleb_true (a b : R) : Rleb a b = true <-> a <= b.
Proof. unfold Rleb; destruct (Rle_dec a b); split; intros; try lra; congruence. Qed.

Lemma Rleb_false (a b : R) : Rleb a b = false <-> b < a.
Proof. unfold Rleb; destruct (Rle_dec a b); split; intros; try lra; congruence. Qed.

Lemma Rltb_true (a b : R) : Rltb a b = true <-> a < b.
Proof. unfold Rltb; destruct (Rlt_dec a b); split; intros; try lra; congruence. Qed.

Lemma Rltb_false (a b : R) : Rltb a b = false <-> b <= a.
Proof. unfold Rltb; destruct (Rlt_dec a b); split; intros; try lra; congruence. Qed.

Lemma Rgtb_true (a b : R) : Rgtb a b = true <-> a > b.
Proof. unfold Rgtb; destruct (Rgt_dec a b); split; intros; try lra; congruence. Qed.

Lemma Rgtb_false (a b : R) : Rgtb a b = false <-> a <= b.
Proof. unfold Rgtb; destruct (Rgt_dec a b); split; intros; try lra; congruence. Qed.

(** ** Normalisation *)

Lemma Length2_nonneg (v : ChVector) : 0 <= Length2 v.
Proof. unfold Length2, Vdot. nra. Qed.

Lemma Length2_pos (v : ChVector) : v <> VNULL -> 0 < Length2 v.
Proof.
  intros Hv. destruct (Rle_lt_or_eq_dec _ _ (Length2_nonneg v)) as [H | H]; trivial.
  exfalso; apply Hv. destruct v as [a b c]. unfold Length2, Vdot in H; simpl in H.
  assert (a = 0) by nra. assert (b = 0) by nra. assert (c = 0) by nra.
  subst; reflexivity.
Qed.

Lemma Length_pos (v : ChVector) : v <> VNULL -> 0 < Length v.
Proof. intros Hv. apply sqrt_lt_R0. now apply Length2_pos. Qed.

Lemma Length_sqr (v : ChVector) : Length v * Length v = Length2 v.
Proof. apply sqrt_sqrt, Length2_nonneg. Qed.

Lemma Length2_Vmul (k : R) (v : ChVector) : Length2 (Vmul k v) = k * k * Length2 v.
Proof. unfold Length2, Vdot, Vmul; simpl; ring. Qed.

Lemma Length2_Normalize (v : ChVector) : v <> VNULL -> Length2 (Normalize v) = 1.
Proof.
  intros Hv. unfold Normalize. rewrite Length2_Vmul, <- Length_sqr.
  field. apply Rgt_not_eq. now apply Length_pos.
Qed.

Lemma Normalize_unit (v : ChVector) : Length2 v = 1 -> Normalize v = v.
Proof.
  intros Hv. unfold Normalize, Length. rewrite Hv, sqrt_1.
  replace (1 / 1) with 1 by field. apply Vmul_1.
Qed.

Lemma Vmul_nonzero (k : R) (v : ChVector) : k <> 0 -> v <> VNULL -> Vmul k v <> VNULL.
Proof.
  intros Hk Hv H. apply Hv. destruct v as [a b c].
  unfold Vmul, VNULL in H; simpl in H. injection H as Ha Hb Hc.
  apply Rmult_integral in Ha, Hb, Hc.
  destruct Ha, Hb, Hc; try contradiction. subst; reflexivity.
Qed.

Lemma Vcross_Vmul_l (k : R) (a b : ChVector) :
  Vcross (Vmul k a) b = Vmul k (Vcross a b).
Proof. componentwise. Qed.

Lemma Vdot_Vmul_l (k : R) (a b : ChVector) : Vdot (Vmul k a) b = k * Vdot a b.
Proof. unfold Vdot, Vmul; simpl; ring. Qed.

Lemma Vdot_Vcross_l (a b : ChVector) : Vdot (Vcross a b) a = 0.
Proof. unfold Vdot, Vcross; simpl; ring. Qed.

(** Lagrange's identity. *)
Lemma Length2_Vcross (a b : ChVector) :
  Length2 (Vcross a b) = Length2 a * Length2 b - Vdot a b * Vdot a b.
Proof. unfold Length2, Vdot, Vcross; simpl; ring. Qed.

(** ** The three vectors of a triad form a rotation matrix *)

Lemma triad_rotation_columns (origin xdir ydir : ChVector) :
  triad_pre origin xdir ydir ->
  rotation_columns (triad_ux origin xdir) (triad_uy origin xdir ydir)
                   (triad_uz origin xdir ydir).
Proof.
  intros [Hx Hxy].
  assert (Hux : Length2 (triad_ux origin xdir) = 1)
    by now apply Length2_Normalize.
  assert (Hc : Vcross (triad_ux origin xdir) (Vsub ydir origin) <> VNULL).
  { unfold triad_ux, Normalize. rewrite Vcross_Vmul_l.
    apply Vmul_nonzero; trivial.
    apply Rgt_not_eq. apply Rdiv_lt_0_compat; [lra | now apply Length_pos]. }
  assert (Huz : Length2 (triad_uz origin xdir ydir) = 1)
    by now apply Length2_Normalize.
  assert (Hzx : Vdot (triad_uz origin xdir ydir) (triad_ux origin xdir) = 0).
  { unfold triad_uz at 1, Normalize.
    rewrite Vdot_Vmul_l, Vdot_Vcross_l. ring. }
  repeat split; trivial.
  unfold triad_uy. apply Normalize_unit.
  rewrite Length2_Vcross, Huz, Hux, Hzx. ring.
Qed.

Lemma rotation_columns_matrix (ux uy uz : ChVector) :
  rotation_columns ux uy uz -> rotation_matrix (Rmat ux uy uz).
Proof.
  intros (Hx & Hz & Hzx & Hy). subst uy.
  destruct ux as [a b c], uz as [d e f].
  unfold Length2, Vdot in *; unfold rotation_matrix, Rmat, Vcross; simpl in *.
  repeat split.
  - replace 3 with (1 + (1 * 1 - 0 * 0) + 1) by ring.
    rewrite <- Hx at 1 2. rewrite <- Hz at 1 2. rewrite <- Hzx. ring.
  - transitivity (a * (d * d + e * e + f * f) - d * (d * a + e * b + f * c)).
    + rewrite Hz, Hzx; ring.
    + ring.
  - ring.
  - transitivity (f * (a * a + b * b + c * c) - c * (d * a + e * b + f * c)).
    + rewrite Hx, Hzx; ring.
    + ring.
Qed.

(** ** The pivot *)

Lemma getMaxIdx_0 (x0 x1 x2 : R) :
  x0 >= x1 -> x0 >= x2 -> getMaxIdx x0 x1 x2 = 0%nat.
Proof.
  intros H1 H2. unfold getMaxIdx.
  now rewrite (proj2 (Rgeb_true _ _) H1), (proj2 (Rgeb_true _ _) H2).
Qed.

Lemma getMaxIdx_1 (x0 x1 x2 : R) :
  x0 < x1 -> x1 >= x2 -> getMaxIdx x0 x1 x2 = 1%nat.
Proof.
  intros H1 H2. unfold getMaxIdx.
  now rewrite (proj2 (Rgeb_false _ _) H1), (proj2 (Rgeb_true _ _) H2).
Qed.

Lemma getMaxIdx_2 (x0 x1 x2 : R) :
  x0 < x2 -> x1 < x2 -> getMaxIdx x0 x1 x2 = 2%nat.
Proof.
  intros H1 H2. unfold getMaxIdx.
  rewrite (proj2 (Rgeb_false _ _) H1), (proj2 (Rgeb_false _ _) H2).
  now rewrite andb_false_r.
Qed.

Lemma getMaxIdx_cases (x0 x1 x2 : R) :
  (getMaxIdx x0 x1 x2 = 0%nat /\ x0 >= x1 /\ x0 >= x2) \/
  (getMaxIdx x0 x1 x2 = 1%nat /\ x1 >= x0 /\ x1 >= x2) \/
  (getMaxIdx x0 x1 x2 = 2%nat /\ x2 >= x0 /\ x2 >= x1).
Proof.
  unfold getMaxIdx.
  destruct (Rgeb x0 x1) eqn:H01, (Rgeb x0 x2) eqn:H02, (Rgeb x1 x2) eqn:H12;
    simpl;
    rewrite ?Rgeb_true, ?Rgeb_false in *;
    first [ left; repeat split; lra
          | right; left; repeat split; lra
          | right; right; repeat split; lra ].
Qed.

(** ** The four components, branch by branch *)

Lemma quarter_norm (r a b c : R) :
  0 < r * r ->
  r * r * (r * r) + a * a + b * b + c * c = 4 * (r * r) ->
  (r * 2 / 4) * (r * 2 / 4) + a / (r * 2) * (a / (r * 2))
  + b / (r * 2) * (b / (r * 2)) + c / (r * 2) * (c / (r * 2)) = 1.
Proof.
  intros Hr H.
  assert (r <> 0) by (intros ->; lra).
  field_simplify_eq; trivial. nra.
Qed.

Section TriadQuaternion.

Variable Rm : nat -> nat -> R.
Variable e_init : Rarray.

Local Abbreviation R00 := (Rm 0%nat 0%nat).
Local Abbreviation R01 := (Rm 0%nat 1%nat).
Local Abbreviation R02 := (Rm 0%nat 2%nat).
Local Abbreviation R10 := (Rm 1%nat 0%nat).
Local Abbreviation R11 := (Rm 1%nat 1%nat).
Local Abbreviation R12 := (Rm 1%nat 2%nat).
Local Abbreviation R20 := (Rm 2%nat 0%nat).
Local Abbreviation R21 := (Rm 2%nat 1%nat).
Local Abbreviation R22 := (Rm 2%nat 2%nat).

(** Branch [trace >= 0]. *)
Lemma triad_e_trace_nonneg :
  R00 + R11 + R22 >= 0 ->
  Qof (triad_e Rm e_init)
  = let s := sqrt (1 + (R00 + R11 + R22)) * 2 in
    Quaternion (s / 4) ((R12 - R21) / s) ((R20 - R02) / s) ((R01 - R10) / s).
Proof.
  intros Htr. unfold triad_e.
  rewrite (proj2 (Rgeb_true _ _) Htr). reflexivity.
Qed.

(** Branch [trace < 0], pivot [i0 = 0] ([i1 = 1], [i2 = 2]). *)
Lemma triad_e_pivot_0 :
  R00 + R11 + R22 < 0 -> getMaxIdx R00 R11 R22 = 0%nat ->
  Qof (triad_e Rm e_init)
  = let s := sqrt (1 + R00 - R11 - R22) * 2 in
    Quaternion ((R21 - R12) / s) (s / 4) ((R01 + R10) / s) ((R02 + R20) / s).
Proof.
  intros Htr Hi. unfold triad_e.
  rewrite (proj2 (Rgeb_false _ _) Htr), Hi. reflexivity.
Qed.

(** Branch [trace < 0], pivot [i0 = 1] ([i1 = 2], [i2 = 0]). *)
Lemma triad_e_pivot_1 :
  R00 + R11 + R22 < 0 -> getMaxIdx R00 R11 R22 = 1%nat ->
  Qof (triad_e Rm e_init)
  = let s := sqrt (1 + R11 - R22 - R00) * 2 in
    Quaternion ((R02 - R20) / s) ((R10 + R01) / s) (s / 4) ((R12 + R21) / s).
Proof.
  intros Htr Hi. unfold triad_e.
  rewrite (proj2 (Rgeb_false _ _) Htr), Hi. reflexivity.
Qed.

(** Branch [trace < 0], pivot [i0 = 2] ([i1 = 0], [i2 = 1]). *)
Lemma triad_e_pivot_2 :
  R00 + R11 + R22 < 0 -> getMaxIdx R00 R11 R22 = 2%nat ->
  Qof (triad_e Rm e_init)
  = let s := sqrt (1 + R22 - R00 - R11) * 2 in
    Quaternion ((R10 - R01) / s) ((R20 + R02) / s) ((R21 + R12) / s) (s / 4).
Proof.
  intros Htr Hi. unfold triad_e.
  rewrite (proj2 (Rgeb_false _ _) Htr), Hi. reflexivity.
Qed.

(** On a rotation matrix both branches produce a unit quaternion: in the
    first the radicand is [1 + trace >= 1], in the second the pivot is the
    largest diagonal entry, which makes the radicand larger than 1. *)
Lemma triad_e_unit : rotation_matrix Rm -> Qunit (Qof (triad_e Rm e_init)).
Proof.
  intros (H3 & C0 & C1 & C2). unfold Qunit.
  destruct (Rge_dec (R00 + R11 + R22) 0) as [Htr | Htr].
  - rewrite (triad_e_trace_nonneg Htr). unfold Qlength2; simpl.
    assert (Hs : sqrt (1 + (R00 + R11 + R22)) * sqrt (1 + (R00 + R11 + R22))
                 = 1 + (R00 + R11 + R22)) by (apply sqrt_sqrt; lra).
    apply quarter_norm; rewrite Hs; [lra | nra].
  - apply Rnot_ge_lt in Htr.
    destruct (getMaxIdx_cases R00 R11 R22)
      as [(Hi & Ha & Hb) | [(Hi & Ha & Hb) | (Hi & Ha & Hb)]].
    + rewrite (triad_e_pivot_0 Htr Hi). unfold Qlength2; simpl.
      assert (Hs : sqrt (1 + R00 - R11 - R22) * sqrt (1 + R00 - R11 - R22)
                   = 1 + R00 - R11 - R22) by (apply sqrt_sqrt; lra).
      match goal with |- ?t1 + ?t0 + ?t2 + ?t3 = 1 =>
        replace (t1 + t0 + t2 + t3) with (t0 + t1 + t2 + t3) by ring end.
      apply quarter_norm; rewrite Hs; [lra | nra].
    + rewrite (triad_e_pivot_1 Htr Hi). unfold Qlength2; simpl.
      assert (Hs : sqrt (1 + R11 - R22 - R00) * sqrt (1 + R11 - R22 - R00)
                   = 1 + R11 - R22 - R00) by (apply sqrt_sqrt; lra).
      match goal with |- ?t1 + ?t2 + ?t0 + ?t3 = 1 =>
        replace (t1 + t2 + t0 + t3) with (t0 + t1 + t2 + t3) by ring end.
      apply quarter_norm; rewrite Hs; [lra | nra].
    + rewrite (triad_e_pivot_2 Htr Hi). unfold Qlength2; simpl.
      assert (Hs : sqrt (1 + R22 - R00 - R11) * sqrt (1 + R22 - R00 - R11)
                   = 1 + R22 - R00 - R11) by (apply sqrt_sqrt; lra).
      match goal with |- ?t1 + ?t2 + ?t3 + ?t0 = 1 =>
        replace (t1 + t2 + t3 + t0) with (t0 + t1 + t2 + t3) by ring end.
      apply quarter_norm; rewrite Hs; [lra | nra].
Qed.

End TriadQuaternion.

(** ** The constructor *)

Lemma rot_ChCoordsys_triad (origin xdir ydir : ChVector) :
  rot (ChCoordsys_triad origin xdir ydir)
  = Qof (triad_e (triad_R origin xdir ydir) (fun _ => 0)).
Proof. reflexivity. Qed.

(** The columns, when the lengths to divide by are known. *)
Lemma triad_columns (origin xdir ydir : ChVector) (k1 k2 : R) :
  0 < k1 -> Length2 (Vsub xdir origin) = k1 * k1 ->
  0 < k2 ->
  Length2 (Vcross (Vmul (1 / k1) (Vsub xdir origin)) (Vsub ydir origin))
  = k2 * k2 ->
  let ux := Vmul (1 / k1) (Vsub xdir origin) in
  let uz := Vmul (1 / k2) (Vcross ux (Vsub ydir origin)) in
  triad_R origin xdir ydir = Rmat ux (Vcross uz ux) uz.
Proof.
  intros Hk1 H1 Hk2 H2 ux uz.
  assert (Ex : triad_ux origin xdir = ux).
  { unfold triad_ux, Normalize, Length. rewrite H1, sqrt_square by lra.
    reflexivity. }
  assert (Ez : triad_uz origin xdir ydir = uz).
  { unfold triad_uz, Normalize, Length. rewrite Ex. fold ux in H2.
    rewrite H2, sqrt_square by lra. reflexivity. }
  assert (Lx : Length2 ux = 1).
  { unfold ux. rewrite Length2_Vmul, H1. field. lra. }
  assert (Lz : Length2 uz = 1).
  { unfold uz, ux. rewrite Length2_Vmul, H2. field. lra. }
  assert (Dzx : Vdot uz ux = 0).
  { unfold uz. rewrite Vdot_Vmul_l, Vdot_Vcross_l. ring. }
  assert (Ey : triad_uy origin xdir ydir = Vcross uz ux).
  { unfold triad_uy. rewrite Ex, Ez. apply Normalize_unit.
    rewrite Length2_Vcross, Lx, Lz, Dzx. ring. }
  unfold triad_R. now rewrite Ex, Ey, Ez.
Qed.

Lemma Vector_neq_VNULL (a b c : R) : a <> 0 \/ b <> 0 \/ c <> 0 -> Vector a b c <> VNULL.
Proof. intros H E. injection E as -> -> ->. destruct H as [H | [H | H]]; now apply H. Qed.

(** The branch [trace >= 0] as the source writes it: [e0 = s/4],
    [e1 = (R12 - R21)/s], [e2 = (R20 - R02)/s], [e3 = (R01 - R10)/s] with
    [s = 2*sqrt(1 + trace)], where [Rij] is the entry at row [i] and column
    [j] of the matrix with columns [ux], [uy], [uz]. *)
Lemma triad_trace_nonneg_components (origin xdir ydir : ChVector) :
  let Rm := triad_R origin xdir ydir in
  let trace := Rm 0%nat 0%nat + Rm 1%nat 1%nat + Rm 2%nat 2%nat in
  let s := 2 * sqrt (1 + trace) in
  trace >= 0 ->
  rot (ChCoordsys_triad origin xdir ydir)
  = Quaternion (s / 4)
               ((Rm 1%nat 2%nat - Rm 2%nat 1%nat) / s)
               ((Rm 2%nat 0%nat - Rm 0%nat 2%nat) / s)
               ((Rm 0%nat 1%nat - Rm 1%nat 0%nat) / s).
Proof.
  intros Rm trace s Htr.
  rewrite rot_ChCoordsys_triad.
  rewrite (triad_e_trace_nonneg (triad_R origin xdir ydir) _ Htr).
  cbv zeta. rewrite (Rmult_comm (sqrt _) 2). reflexivity.
Qed.

(** The identity triad: [R] is the identity matrix, of trace 3. *)
Lemma triad_R_identity :
  triad_R VNULL (Vector 1 0 0) (Vector 0 1 0)
  = Rmat (Vector 1 0 0) (Vector 0 1 0) (Vector 0 0 1).
Proof.
  rewrite (triad_columns VNULL (Vector 1 0 0) (Vector 0 1 0) 1 1);
    try lra; try (unfold Length2, Vdot, Vcross, Vmul, Vsub; simpl; field).
  unfold Vcross, Vmul, Vsub; simpl. f_equal; f_equal; field.
Qed.

Lemma sqrt_4 : sqrt 4 = 2.
Proof. replace 4 with (2 * 2) by ring. apply sqrt_square; lra. Qed.

Ltac triad_columns_with k1 k2 :=
  match goal with
  | |- triad_R ?o ?xd ?yd = _ =>
      rewrite (triad_columns o xd yd k1 k2);
      [ unfold Vcross, Vmul, Vsub; simpl; f_equal; f_equal; field
      | try lra
      | unfold Length2, Vdot, Vcross, Vmul, Vsub; simpl; try field
      | try lra
      | unfold Length2, Vdot, Vcross, Vmul, Vsub; simpl; try field ]
  end.

(** A quarter turn about the vertical: x axis along +y, y axis along -x. *)
Lemma triad_R_quarter_turn :
  triad_R VNULL (Vector 0 1 0) (Vector (-1) 0 0)
  = Rmat (Vector 0 1 0) (Vector (-1) 0 0) (Vector 0 0 1).
Proof. triad_columns_with 1 1. Qed.

(** ** Half turns about the three axes *)

Lemma triad_R_half_turn_x :
  triad_R VNULL (Vector 1 0 0) (Vector 0 (-1) 0)
  = Rmat (Vector 1 0 0) (Vector 0 (-1) 0) (Vector 0 0 (-1)).
Proof. triad_columns_with 1 1. Qed.

Lemma triad_R_half_turn_y :
  triad_R VNULL (Vector (-1) 0 0) (Vector 0 1 0)
  = Rmat (Vector (-1) 0 0) (Vector 0 1 0) (Vector 0 0 (-1)).
Proof. triad_columns_with 1 1. Qed.

Lemma triad_R_half_turn_z :
  triad_R VNULL (Vector (-1) 0 0) (Vector 0 (-1) 0)
  = Rmat (Vector (-1) 0 0) (Vector 0 (-1) 0) (Vector 0 0 1).
Proof. triad_columns_with 1 1. Qed.

Ltac half_turn :=
  cbv zeta; simpl;
  match goal with |- context [sqrt ?r] => replace r with 4 by ring end;
  rewrite sqrt_4; f_equal; field.

(** C5: the triads of the three half turns give the quaternions
    [(0,1,0,0)], [(0,0,1,0)] and [(0,0,0,1)]; each has [trace = -1 < 0] and
    takes the pivot branch, with pivot 0, 1 and 2 respectively. *)
Theorem triad_half_turns :
  (rot (ChCoordsys_triad VNULL (Vector 1 0 0) (Vector 0 (-1) 0))
   = Quaternion 0 1 0 0 /\
   triad_trace VNULL (Vector 1 0 0) (Vector 0 (-1) 0) < 0) /\
  (rot (ChCoordsys_triad VNULL (Vector (-1) 0 0) (Vector 0 1 0))
   = Quaternion 0 0 1 0 /\
   triad_trace VNULL (Vector (-1) 0 0) (Vector 0 1 0) < 0) /\
  (rot (ChCoordsys_triad VNULL (Vector (-1) 0 0) (Vector 0 (-1) 0))
   = Quaternion 0 0 0 1 /\
   triad_trace VNULL (Vector (-1) 0 0) (Vector 0 (-1) 0) < 0).
Proof.
  repeat split.
  - rewrite rot_ChCoordsys_triad, triad_R_half_turn_x.
    rewrite triad_e_pivot_0;
      [half_turn | simpl; lra | apply getMaxIdx_0; simpl; lra].
  - unfold triad_trace. rewrite triad_R_half_turn_x. simpl; lra.
  - rewrite rot_ChCoordsys_triad, triad_R_half_turn_y.
    rewrite triad_e_pivot_1;
      [half_turn | simpl; lra | apply getMaxIdx_1; simpl; lra].
  - unfold triad_trace. rewrite triad_R_half_turn_y. simpl; lra.
  - rewrite rot_ChCoordsys_triad, triad_R_half_turn_z.
    rewrite triad_e_pivot_2;
      [half_turn | simpl; lra | apply getMaxIdx_2; simpl; lra].
  - unfold triad_trace. rewrite triad_R_half_turn_z. simpl; lra.
Qed.

(** C6: under the precondition (xdir - origin is not zero and
    ydir - origin is not parallel to it) the constructed pose sits at
    [origin] and its quaternion has norm exactly 1, in the branch
    [trace >= 0] as in the branch [trace < 0], with no normalisation after
    the conversion. *)
Theorem ChCoordsys_triad_unit (origin xdir ydir : ChVector) :
  triad_pre origin xdir ydir ->
  pos (ChCoordsys_triad origin xdir ydir) = origin /\
  Qunit (rot (ChCoordsys_triad origin xdir ydir)).
Proof.
  intros Hpre. split; [reflexivity |].
  rewrite rot_ChCoordsys_triad.
  apply triad_e_unit.
  apply (rotation_columns_matrix _ _ _ (triad_rotation_columns _ _ _ Hpre)).
Qed.

Lemma ChCoordsys_triad_unit_witness :
  triad_pre (Vector 1 2 3) (Vector 2 4 3) (Vector 1 5 7) /\
  Qunit (rot (ChCoordsys_triad (Vector 1 2 3) (Vector 2 4 3) (Vector 1 5 7))).
Proof.
  assert (H : triad_pre (Vector 1 2 3) (Vector 2 4 3) (Vector 1 5 7)).
  { split; unfold Vcross, Vsub; simpl; apply Vector_neq_VNULL; left; lra. }
  split; trivial.
  apply (ChCoordsys_triad_unit (Vector 1 2 3) (Vector 2 4 3) (Vector 1 5 7) H).
Defined.

(** ** Triads at 45 degrees in the x-y plane *)

Lemma sqrt2_bounds : 1.4142135 < sqrt 2 < 1.4142136.
Proof.
  split.
  - replace 1.4142135 with (sqrt (1.4142135 * 1.4142135))
      by (apply sqrt_square; lra).
    apply sqrt_lt_1; lra.
  - replace 1.4142136 with (sqrt (1.4142136 * 1.4142136))
      by (apply sqrt_square; lra).
    apply sqrt_lt_1; lra.
Qed.

Lemma inv_sqrt2_bounds : 0.7071067 < 1 / sqrt 2 < 0.7071069.
Proof.
  pose proof sqrt2_bounds as [Hl Hu].
  assert (Hp : 0 < 1 / sqrt 2) by (apply Rdiv_lt_0_compat; lra).
  assert (E : 1 / sqrt 2 * sqrt 2 = 1) by (field; lra).
  split; nra.
Qed.

Lemma sqrt_sqrt2_bounds (a : R) :
  0.7071067 < a < 0.7071069 ->
  1.847759 < sqrt (1 + (a + a + 1)) < 1.847760.
Proof.
  intros [Hl Hu]. split.
  - replace 1.847759 with (sqrt (1.847759 * 1.847759))
      by (apply sqrt_square; lra).
    apply sqrt_lt_1; lra.
  - replace 1.847760 with (sqrt (1.847760 * 1.847760))
      by (apply sqrt_square; lra).
    apply sqrt_lt_1; lra.
Qed.

Lemma triad_R_plus_45 :
  triad_R VNULL (Vector 1 1 0) (Vector 0 1 0)
  = Rmat (Vector (1 / sqrt 2) (1 / sqrt 2) 0)
         (Vector (- (1 / sqrt 2)) (1 / sqrt 2) 0) (Vector 0 0 1).
Proof.
  pose proof sqrt2_bounds as [Hl Hu].
  rewrite (triad_columns VNULL (Vector 1 1 0) (Vector 0 1 0)
             (sqrt 2) (1 / sqrt 2)).
  - unfold Vcross, Vmul, Vsub; simpl; f_equal; f_equal; field; lra.
  - lra.
  - unfold Length2, Vdot, Vsub; simpl. rewrite sqrt_sqrt by lra. ring.
  - apply Rdiv_lt_0_compat; lra.
  - unfold Length2, Vdot, Vcross, Vmul, Vsub; simpl. field; lra.
Qed.

Lemma triad_R_minus_45 :
  triad_R VNULL (Vector 1 (-1) 0) (Vector 0 1 0)
  = Rmat (Vector (1 / sqrt 2) (- (1 / sqrt 2)) 0)
         (Vector (1 / sqrt 2) (1 / sqrt 2) 0) (Vector 0 0 1).
Proof.
  pose proof sqrt2_bounds as [Hl Hu].
  rewrite (triad_columns VNULL (Vector 1 (-1) 0) (Vector 0 1 0)
             (sqrt 2) (1 / sqrt 2)).
  - unfold Vcross, Vmul, Vsub; simpl; f_equal; f_equal; field; lra.
  - lra.
  - unfold Length2, Vdot, Vsub; simpl. rewrite sqrt_sqrt by lra. ring.
  - apply Rdiv_lt_0_compat; lra.
  - unfold Length2, Vdot, Vcross, Vmul, Vsub; simpl. field; lra.
Qed.

(** The quaternions of the two triads, in closed form. *)
Lemma rot_triad_plus_45 :
  rot (ChCoordsys_triad VNULL (Vector 1 1 0) (Vector 0 1 0))
  = let a := 1 / sqrt 2 in
    let s := sqrt (1 + (a + a + 1)) * 2 in
    Quaternion (s / 4) 0 0 ((- a - a) / s).
Proof.
  pose proof inv_sqrt2_bounds as [Hl Hu].
  rewrite rot_ChCoordsys_triad, triad_R_plus_45.
  rewrite triad_e_trace_nonneg; [| simpl; lra].
  cbv zeta; simpl. replace (0 - 0) with 0 by ring.
  unfold Rdiv. now rewrite !Rmult_0_l.
Qed.

Lemma rot_triad_minus_45 :
  rot (ChCoordsys_triad VNULL (Vector 1 (-1) 0) (Vector 0 1 0))
  = let a := 1 / sqrt 2 in
    let s := sqrt (1 + (a + a + 1)) * 2 in
    Quaternion (s / 4) 0 0 ((a + a) / s).
Proof.
  pose proof inv_sqrt2_bounds as [Hl Hu].
  rewrite rot_ChCoordsys_triad, triad_R_minus_45.
  rewrite triad_e_trace_nonneg; [| simpl; lra].
  cbv zeta; simpl. replace (0 - 0) with 0 by ring.
  replace (1 / sqrt 2 - - (1 / sqrt 2)) with (1 / sqrt 2 + 1 / sqrt 2) by ring.
  unfold Rdiv. now rewrite !Rmult_0_l.
Qed.

(** C4: with xdir = (1,1,0), ydir = (0,1,0) the quaternion is
    (0.92388, 0, 0, -0.382683) up to 1e-6 in each component; with
    xdir = (1,-1,0) it is (0.92388, 0, 0, 0.382683) up to 1e-6; the last
    component of the second is the opposite of that of the first. *)
Theorem triad_45_degrees :
  let q1 := rot (ChCoordsys_triad VNULL (Vector 1 1 0) (Vector 0 1 0)) in
  let q2 := rot (ChCoordsys_triad VNULL (Vector 1 (-1) 0) (Vector 0 1 0)) in
  (Rabs (e0 q1 - 0.92388) < 1e-6 /\ e1 q1 = 0 /\ e2 q1 = 0 /\
   Rabs (e3 q1 - (- 0.382683)) < 1e-6) /\
  (Rabs (e0 q2 - 0.92388) < 1e-6 /\ e1 q2 = 0 /\ e2 q2 = 0 /\
   Rabs (e3 q2 - 0.382683) < 1e-6) /\
  e3 q1 < 0 < e3 q2 /\ e3 q2 = - e3 q1.
Proof.
  intros q1 q2. subst q1 q2.
  rewrite rot_triad_plus_45, rot_triad_minus_45. cbv zeta; simpl.
  pose proof inv_sqrt2_bounds as Ha.
  pose proof (sqrt_sqrt2_bounds _ Ha) as Ht.
  set (a := 1 / sqrt 2) in *.
  set (t := sqrt (1 + (a + a + 1))) in *.
  assert (Hi : / (t * 2) * (t * 2) = 1) by (field; lra).
  assert (E3 : (a + a) / (t * 2) * t = a) by (field; lra).
  assert (E3' : (- a - a) / (t * 2) = - ((a + a) / (t * 2)))
    by (field; lra).
  rewrite E3'.
  set (w := (a + a) / (t * 2)) in *.
  assert (Hw : 0.382682 < w < 0.382684) by (split; nra).
  repeat split; try reflexivity; try lra;
    apply Rabs_def1; lra.
Qed.

(** * Disc-terrain contact *)

Section DiscTerrainContactProperties.

Variable A_axis_quaternion : ChVector -> ChVector -> ChVector -> ChQuaternion.
Variable NDEBUG : bool.

Local Abbreviation contact_query := (disc_terrain_contact A_axis_quaternion NDEBUG).

(** The [assert] either lets the [return true] through or aborts. *)
Lemma assert_Returned (c : bool) (k : outcome) (ret : bool)
      (contact : ChCoordsys) (depth : R) :
  assert NDEBUG c k = Returned ret contact depth -> k = Returned ret contact depth.
Proof. unfold assert. destruct NDEBUG, c; congruence. Qed.

(** C9: with the disc normal exactly (0,0,1) the query returns false, for
    every terrain, centre and radius: either the centre is out of range, or
    [sinTilt2 = 0 < 1e-3]. *)
Theorem horizontal_disc_no_contact (terrain : ChTerrain) (disc_center : ChVector)
        (disc_radius : R) (contact : ChCoordsys) (depth : R) :
  contact_query terrain disc_center (Vector 0 0 1) disc_radius contact depth
  = Returned false contact depth.
Proof.
  unfold disc_terrain_contact.
  destruct (Rleb _ _ || Rgeb _ _); [reflexivity |].
  assert (H : Rltb (Length2 (Vcross (Vector 0 0 1) (Vector 0 0 1))) (1 / 1000)
              = true).
  { apply Rltb_true. unfold Length2, Vdot, Vcross; simpl. lra. }
  now rewrite H.
Qed.

(** C10: when the query returns false the two reference parameters hold
    what they held at the call; they are assigned on the path that returns
    true only. *)
Theorem no_contact_leaves_outputs (terrain : ChTerrain)
        (disc_center disc_normal : ChVector) (disc_radius : R)
        (contact : ChCoordsys) (depth : R) (contact' : ChCoordsys) (depth' : R) :
  contact_query terrain disc_center disc_normal disc_radius contact depth
  = Returned false contact' depth' ->
  contact' = contact /\ depth' = depth.
Proof.
  unfold disc_terrain_contact.
  destruct (Rleb _ _ || Rgeb _ _); [intros [= <- <-]; now split |].
  destruct (Rltb _ _); [intros [= <- <-]; now split |].
  destruct (Rgtb _ _); [intros [= <- <-]; now split |].
  intros H. apply assert_Returned in H. discriminate H.
Qed.

(** On the path that returns true the lowest point is not above the terrain
    and the depth is the product of the gap with the vertical component of
    the terrain normal. *)
Lemma contact_depth (terrain : ChTerrain) (disc_center disc_normal : ChVector)
      (disc_radius : R) (contact : ChCoordsys) (depth : R)
      (contact' : ChCoordsys) (depth' : R) :
  contact_query terrain disc_center disc_normal disc_radius contact depth
  = Returned true contact' depth' ->
  let ptD := pos contact' in
  let hp := GetHeight terrain (x ptD) (y ptD) in
  z ptD <= hp /\ depth' = (hp - z ptD) * z (GetNormal terrain (x ptD) (y ptD)).
Proof.
  unfold disc_terrain_contact.
  destruct (Rleb _ _ || Rgeb _ _); [discriminate |].
  destruct (Rltb _ _); [discriminate |].
  destruct (Rgtb _ _) eqn:Hgt; [discriminate |].
  intros H. apply assert_Returned in H. injection H as <- <-.
  apply Rgtb_false in Hgt. simpl. split; [exact Hgt |].
  unfold Vdot; simpl. ring.
Qed.

End DiscTerrainContactProperties.

Lemma no_contact_leaves_outputs_witness :
  disc_terrain_contact (fun _ _ _ => QUNIT) true flat_terrain (Vector 0 0 2)
    (Vector 0 0 1) 1 csys_sample1 7 = Returned false csys_sample1 7 /\
  (csys_sample1 = csys_sample1 /\ 7 = 7).
Proof.
  assert (H : disc_terrain_contact (fun _ _ _ => QUNIT) true flat_terrain
                (Vector 0 0 2) (Vector 0 0 1) 1 csys_sample1 7
              = Returned false csys_sample1 7).
  { unfold disc_terrain_contact.
    replace (Rleb _ _ || Rgeb _ _) with true; [reflexivity |].
    symmetry. apply orb_true_iff. right. apply Rgeb_true. simpl. lra. }
  split; [exact H |].
  exact (no_contact_leaves_outputs (fun _ _ _ => QUNIT) true flat_terrain
           (Vector 0 0 2) (Vector 0 0 1) 1 csys_sample1 7 csys_sample1 7 H).
Defined.

(** ** The depth on the path that returns true *)

Lemma sqrt_9_25 : sqrt (9 / 25) = 3 / 5.
Proof.
  replace (9 / 25) with (3 / 5 * (3 / 5)) by field. apply sqrt_square; lra.
Qed.

(** C2 fails on the sources: on a flat terrain at height 0 a disc of
    radius 5 centred at (0,0,3) with unit normal (3/5, 0, 4/5) has its lowest
    point at (4,0,0), on the terrain.  The test [ptD.z > hp] lets it through
    and the depth written is 0: the function returns true with [depth = 0]
    when NDEBUG is defined, and the [assert(depth > 0)] fails otherwise. *)
Theorem touching_disc_depth_zero
        (A_axis_quaternion : ChVector -> ChVector -> ChVector -> ChQuaternion)
        (contact : ChCoordsys) (depth : R) :
  Length2 (Vector (3/5) 0 (4/5)) = 1 /\
  (exists q,
     disc_terrain_contact A_axis_quaternion true flat_terrain (Vector 0 0 3)
       (Vector (3/5) 0 (4/5)) 5 contact depth
     = Returned true (Coordsys (Vector 4 0 0) q) 0) /\
  disc_terrain_contact A_axis_quaternion false flat_terrain (Vector 0 0 3)
    (Vector (3/5) 0 (4/5)) 5 contact depth = Aborted.
Proof.
  assert (Hdir : Vcross (Vector (3/5) 0 (4/5)) (Vector 0 0 1)
                 = Vector 0 (- (3/5)) 0)
    by (unfold Vcross; simpl; f_equal; field).
  assert (Hlen : Length2 (Vector 0 (- (3/5)) 0) = 9 / 25)
    by (unfold Length2, Vdot; simpl; field).
  assert (HptD : Vadd (Vector 0 0 3)
                   (Vmul 5 (Vcross (Vector (3/5) 0 (4/5))
                                   (Vdiv (Vector 0 (- (3/5)) 0) (3 / 5))))
                 = Vector 4 0 0)
    by (unfold Vadd, Vmul, Vcross, Vdiv; simpl; f_equal; field).
  assert (Hrange : Rleb 3 0 || Rgeb 3 (0 + 5) = false).
  { apply orb_false_iff. split; [apply Rleb_false | apply Rgeb_false]; lra. }
  assert (Htilt : Rltb (9 / 25) (1 / 1000) = false)
    by (apply Rltb_false; lra).
  assert (Hlow : Rgtb 0 0 = false) by (apply Rgtb_false; lra).
  assert (Hdepth : Vdot (Vector 0 0 (0 - 0)) (Vector 0 0 1) = 0)
    by (unfold Vdot; simpl; ring).
  split; [unfold Length2, Vdot; simpl; field |].
  unfold disc_terrain_contact, flat_terrain, assert.
  cbv zeta; cbn [GetHeight GetNormal x y z].
  rewrite Hdir, Hlen, sqrt_9_25, HptD, Hrange, Htilt.
  cbn [x y z]. rewrite Hdepth, Hlow.
  split; [eexists |]; reflexivity.
Qed.

(** * Further properties of the pose algebra *)

Lemma GetConjugate_involutive (q : ChQuaternion) :
  GetConjugate (GetConjugate q) = q.
Proof. destruct q; unfold GetConjugate; simpl; f_equal; ring. Qed.

Lemma Qlength2_GetConjugate (q : ChQuaternion) :
  Qlength2 (GetConjugate q) = Qlength2 q.
Proof. unfold Qlength2, GetConjugate; simpl; ring. Qed.

Lemma Qunit_GetConjugate (q : ChQuaternion) : Qunit q -> Qunit (GetConjugate q).
Proof. unfold Qunit. now rewrite Qlength2_GetConjugate. Qed.

Lemma Qcross_GetConjugate_r (q : ChQuaternion) :
  Qunit q -> Qcross q (GetConjugate q) = QUNIT.
Proof.
  intros Hq. rewrite <- (GetConjugate_involutive q) at 1.
  apply Qcross_GetConjugate_l. now apply Qunit_GetConjugate.
Qed.

(** Rotating back is rotating by the conjugate. *)
Lemma RotateBack_conj (q : ChQuaternion) (v : ChVector) :
  RotateBack q v = Rotate (GetConjugate q) v.
Proof. unfold RotateBack, Rotate. now rewrite GetConjugate_involutive. Qed.

Lemma Rotate_RotateBack (q : ChQuaternion) (v : ChVector) :
  Qunit q -> Rotate q (RotateBack q v) = v.
Proof.
  intros Hq. rewrite RotateBack_conj, <- Rotate_Qcross.
  rewrite (Qcross_GetConjugate_r q Hq).
  unfold Rotate. rewrite Qcross_QUNIT_l.
  destruct v; componentwise.
Qed.

Lemma RotateBack_Qcross (a b : ChQuaternion) (v : ChVector) :
  RotateBack (Qcross a b) v = RotateBack b (RotateBack a v).
Proof. now rewrite !RotateBack_conj, GetConjugate_Qcross, Rotate_Qcross. Qed.

Lemma Rotate_Vsub (q : ChQuaternion) (u v : ChVector) :
  Rotate q (Vsub u v) = Vsub (Rotate q u) (Rotate q v).
Proof. componentwise. Qed.

Lemma RotateBack_Vsub (q : ChQuaternion) (u v : ChVector) :
  RotateBack q (Vsub u v) = Vsub (RotateBack q u) (RotateBack q v).
Proof. rewrite !RotateBack_conj. apply Rotate_Vsub. Qed.

Lemma Rotate_QUNIT (v : ChVector) : Rotate QUNIT v = v.
Proof. destruct v; componentwise. Qed.

Lemma Rotate_VNULL (q : ChQuaternion) : Rotate q VNULL = VNULL.
Proof. unfold VNULL; componentwise. Qed.

Lemma Vadd_VNULL_r (v : ChVector) : Vadd v VNULL = v.
Proof. destruct v; unfold VNULL; componentwise. Qed.

Lemma Vadd_VNULL_l (v : ChVector) : Vadd VNULL v = v.
Proof. destruct v; unfold VNULL; componentwise. Qed.

Lemma Vadd_comm (u v : ChVector) : Vadd u v = Vadd v u.
Proof. componentwise. Qed.

Lemma Vadd_Vsub_cancel (p v : ChVector) : Vadd p (Vsub v p) = v.
Proof. destruct p, v; componentwise. Qed.

Lemma Vsub_Vadd_Vadd (p u v : ChVector) : Vsub (Vadd p u) (Vadd p v) = Vsub u v.
Proof. componentwise. Qed.

Lemma Length2_Qpure (v : ChVector) : Qlength2 (Qpure v) = Length2 v.
Proof. unfold Qlength2, Qpure, Length2, Vdot; simpl; ring. Qed.

(** The squared length of a rotated vector: scaled by the fourth power of
    the norm of the quaternion. *)
Lemma Length2_Rotate (q : ChQuaternion) (v : ChVector) :
  Length2 (Rotate q v) = Qlength2 q * Qlength2 q * Length2 v.
Proof.
  rewrite <- !Length2_Qpure, Qpure_Rotate, !Qlength2_Qcross.
  rewrite Qlength2_GetConjugate. ring.
Qed.

Lemma csys_eta (A : ChCoordsys) : Coordsys (pos A) (rot A) = A.
Proof. now destruct A. Qed.

(** X1: the identity pose of the default constructor is neutral for the
    composition, on the left and on the right, and maps every point to
    itself. *)
Theorem identity_pose_neutral (A : ChCoordsys) (p : ChVector) :
  TransformLocalToParent CSYSNORM A = A /\
  TransformLocalToParent A CSYSNORM = A /\
  Point.TransformLocalToParent CSYSNORM p = p /\
  Point.TransformParentToLocal CSYSNORM p = p.
Proof.
  unfold TransformLocalToParent, Point.TransformLocalToParent,
    Point.TransformParentToLocal, CSYSNORM; simpl.
  rewrite !Rotate_QUNIT, Rotate_VNULL, !Vadd_VNULL_l, Vadd_VNULL_r.
  rewrite Qcross_QUNIT_l, Qcross_QUNIT_r, csys_eta.
  repeat split. destruct p; componentwise.
Qed.

(** X2: for a pose with unit-norm orientation, mapping a parent point to
    local coordinates and back gives the point again
    ([A.TransformLocalToParent(A / p) = p]). *)
Theorem TransformLocalToParent_ParentToLocal (A : ChCoordsys) (p : ChVector) :
  Qunit (rot A) ->
  Point.TransformLocalToParent A (Point.TransformParentToLocal A p) = p.
Proof.
  intros HA. unfold Point.TransformLocalToParent, Point.TransformParentToLocal.
  rewrite (Rotate_RotateBack _ _ HA). apply Vadd_Vsub_cancel.
Qed.

Lemma TransformLocalToParent_ParentToLocal_witness :
  Qunit (rot csys_sample2) /\
  Point.TransformLocalToParent csys_sample2
    (Point.TransformParentToLocal csys_sample2 (Vector 2 3 4)) = Vector 2 3 4.
Proof.
  split; [unit_quaternion |].
  apply (TransformLocalToParent_ParentToLocal csys_sample2 (Vector 2 3 4)).
  unit_quaternion.
Defined.

(** X3: for a pose [A] with unit-norm orientation the two transformations
    of poses undo each other: [A.TransformParentToLocal] after
    [A.TransformLocalToParent], and the other way round, give back the pose
    they started from. *)
Theorem csys_transform_round_trip (A B : ChCoordsys) :
  Qunit (rot A) ->
  TransformParentToLocal A (TransformLocalToParent A B) = B /\
  TransformLocalToParent A (TransformParentToLocal A B) = B.
Proof.
  intros HA. split.
  - unfold TransformParentToLocal, TransformLocalToParent,
      Point.TransformParentToLocal, Point.TransformLocalToParent; simpl.
    rewrite Vsub_Vadd_cancel, (RotateBack_Rotate _ _ HA).
    rewrite <- Qcross_assoc, (Qcross_GetConjugate_l _ HA), Qcross_QUNIT_l.
    apply csys_eta.
  - unfold TransformParentToLocal, TransformLocalToParent,
      Point.TransformParentToLocal, Point.TransformLocalToParent; simpl.
    rewrite (Rotate_RotateBack _ _ HA), Vadd_Vsub_cancel.
    rewrite <- Qcross_assoc, (Qcross_GetConjugate_r _ HA), Qcross_QUNIT_l.
    apply csys_eta.
Qed.

Lemma csys_transform_round_trip_witness :
  Qunit (rot csys_sample1) /\
  TransformParentToLocal csys_sample1
    (TransformLocalToParent csys_sample1 csys_sample3) = csys_sample3.
Proof.
  split; [unit_quaternion |].
  apply (csys_transform_round_trip csys_sample1 csys_sample3).
  unit_quaternion.
Defined.

(** X4: a chain written with [>>] is the chain written with [*] in the
    opposite order: [F >> C >> B >> A = A * B * C * F], both read from left
    to right as C++ does. *)
Theorem shr_chain_is_mul_chain (F C B A : ChCoordsys) :
  csys_shr (csys_shr (csys_shr F C) B) A
  = csys_mul (csys_mul (csys_mul A B) C) F.
Proof.
  unfold csys_shr, csys_mul. now rewrite !compose_assoc_any.
Qed.

(** X5: transforming a point by a composed pose is transforming it by the
    inner pose, then by the outer one:
    [(A * B).TransformLocalToParent(p) = A.TransformLocalToParent(
    B.TransformLocalToParent(p))]. *)
Theorem compose_TransformLocalToParent (A B : ChCoordsys) (p : ChVector) :
  Point.TransformLocalToParent (TransformLocalToParent A B) p
  = Point.TransformLocalToParent A (Point.TransformLocalToParent B p).
Proof.
  unfold TransformLocalToParent, Point.TransformLocalToParent; simpl.
  now rewrite Rotate_Qcross, Rotate_Vadd, Vadd_assoc.
Qed.

(** X6: in the other direction the order is reversed, for a unit-norm outer
    orientation: [(A * B).TransformParentToLocal(p) =
    B.TransformParentToLocal(A.TransformParentToLocal(p))]. *)
Theorem compose_TransformParentToLocal (A B : ChCoordsys) (p : ChVector) :
  Qunit (rot A) ->
  Point.TransformParentToLocal (TransformLocalToParent A B) p
  = Point.TransformParentToLocal B (Point.TransformParentToLocal A p).
Proof.
  intros HA.
  unfold TransformLocalToParent, Point.TransformLocalToParent,
    Point.TransformParentToLocal; simpl.
  rewrite RotateBack_Qcross. f_equal.
  rewrite <- (RotateBack_Rotate (rot A) (pos B) HA) at 2.
  rewrite <- RotateBack_Vsub. f_equal. componentwise.
Qed.

Lemma compose_TransformParentToLocal_witness :
  Qunit (rot csys_sample1) /\
  Point.TransformParentToLocal
    (TransformLocalToParent csys_sample1 csys_sample3) (Vector 2 3 4)
  = Point.TransformParentToLocal csys_sample3
      (Point.TransformParentToLocal csys_sample1 (Vector 2 3 4)).
Proof.
  split; [unit_quaternion |].
  apply (compose_TransformParentToLocal csys_sample1 csys_sample3 (Vector 2 3 4)).
  unit_quaternion.
Defined.

(** X7: the composition and its inverse keep the invariant of rotations:
    from unit-norm orientations they produce a unit-norm orientation. *)
Theorem compose_keeps_unit_norm (A B : ChCoordsys) :
  Qunit (rot A) -> Qunit (rot B) ->
  Qunit (rot (TransformLocalToParent A B)) /\
  Qunit (rot (TransformParentToLocal A B)).
Proof.
  intros HA HB. split; simpl; apply Qunit_Qcross; trivial.
  now apply Qunit_GetConjugate.
Qed.

Lemma compose_keeps_unit_norm_witness :
  (Qunit (rot csys_sample1) /\ Qunit (rot csys_sample2)) /\
  Qunit (rot (TransformLocalToParent csys_sample1 csys_sample2)).
Proof.
  split; [split; unit_quaternion |].
  apply (compose_keeps_unit_norm csys_sample1 csys_sample2); unit_quaternion.
Defined.

(** X8: pre- and post-concatenation are the products [T * this] and
    [this * T], and they commute: pre-concatenating [T1] and
    post-concatenating [T2] gives [T1 * this * T2] in either order. *)
Theorem concatenate_pre_post_commute (this T1 T2 : ChCoordsys) :
  ConcatenatePostTransformation (ConcatenatePreTransformation this T1) T2
  = ConcatenatePreTransformation (ConcatenatePostTransformation this T2) T1 /\
  ConcatenatePostTransformation (ConcatenatePreTransformation this T1) T2
  = csys_mul (csys_mul T1 this) T2.
Proof.
  assert (Hpre : forall a t, ConcatenatePreTransformation a t = csys_mul t a)
    by reflexivity.
  assert (Hpost : forall a t, ConcatenatePostTransformation a t = csys_mul a t)
    by reflexivity.
  rewrite !Hpre, !Hpost. unfold csys_mul.
  now rewrite compose_assoc_any.
Qed.

(** X9: the operators that move a pose by a vector or turn it by a
    quaternion ([>>=] with a vector or a quaternion, [vector * pose],
    [quaternion * pose]) are pre-concatenations of the pure translation
    [(D, identity)] and of the pure rotation [(0, R)]. *)
Theorem move_and_turn_are_concatenations (A : ChCoordsys) (D : ChVector)
        (Rq : ChQuaternion) :
  shr_assign_vector A D = ConcatenatePreTransformation A (Coordsys D QUNIT) /\
  vector_mul_csys D A = ConcatenatePreTransformation A (Coordsys D QUNIT) /\
  shr_assign_quaternion A Rq
  = ConcatenatePreTransformation A (Coordsys VNULL Rq) /\
  quaternion_mul_csys Rq A = ConcatenatePreTransformation A (Coordsys VNULL Rq).
Proof.
  unfold shr_assign_vector, vector_mul_csys, shr_assign_quaternion,
    quaternion_mul_csys, ConcatenatePreTransformation,
    Point.TransformLocalToParent; simpl.
  rewrite Rotate_QUNIT, Qcross_QUNIT_l, Vadd_VNULL_l, (Vadd_comm D).
  repeat split.
Qed.

(** X10: a pose with unit-norm orientation is a rigid motion: it keeps the
    distance between two points, and the difference of two transformed
    points is the transformed direction of their difference. *)
Theorem rigid_motion (A : ChCoordsys) (p q : ChVector) :
  Qunit (rot A) ->
  Length2 (Vsub (Point.TransformLocalToParent A p)
                (Point.TransformLocalToParent A q))
  = Length2 (Vsub p q) /\
  Vsub (Point.TransformLocalToParent A p) (Point.TransformLocalToParent A q)
  = TransformDirectionLocalToParent A (Vsub p q).
Proof.
  intros HA.
  assert (E : Vsub (Point.TransformLocalToParent A p)
                   (Point.TransformLocalToParent A q)
              = TransformDirectionLocalToParent A (Vsub p q)).
  { unfold Point.TransformLocalToParent, TransformDirectionLocalToParent.
    now rewrite Vsub_Vadd_Vadd, Rotate_Vsub. }
  split; trivial.
  rewrite E. unfold TransformDirectionLocalToParent.
  rewrite Length2_Rotate, HA. ring.
Qed.

Lemma rigid_motion_witness :
  Qunit (rot csys_sample3) /\
  Length2 (Vsub (Point.TransformLocalToParent csys_sample3 (Vector 2 3 4))
                (Point.TransformLocalToParent csys_sample3 (Vector 1 0 5)))
  = Length2 (Vsub (Vector 2 3 4) (Vector 1 0 5)).
Proof.
  split; [unit_quaternion |].
  apply (rigid_motion csys_sample3 (Vector 2 3 4) (Vector 1 0 5)).
  unit_quaternion.
Defined.

(** X11: the two transformations of directions undo each other for a
    unit-norm orientation, and neither depends on the position of the
    pose. *)
Theorem direction_round_trip (A : ChCoordsys) (d : ChVector) (p : ChVector) :
  Qunit (rot A) ->
  TransformDirectionParentToLocal A (TransformDirectionLocalToParent A d) = d /\
  TransformDirectionLocalToParent A (TransformDirectionParentToLocal A d) = d /\
  TransformDirectionLocalToParent (Coordsys p (rot A)) d
  = TransformDirectionLocalToParent A d.
Proof.
  intros HA. unfold TransformDirectionParentToLocal,
    TransformDirectionLocalToParent; simpl.
  rewrite (RotateBack_Rotate _ _ HA), (Rotate_RotateBack _ _ HA).
  repeat split.
Qed.

Lemma direction_round_trip_witness :
  Qunit (rot csys_sample1) /\
  TransformDirectionParentToLocal csys_sample1
    (TransformDirectionLocalToParent csys_sample1 (Vector 1 2 3))
  = Vector 1 2 3.
Proof.
  split; [unit_quaternion |].
  apply (direction_round_trip csys_sample1 (Vector 1 2 3) VNULL).
  unit_quaternion.
Defined.

(** * Force2D *)

(** X12: [Force2D] yields a planar pose and applying it twice is applying
    it once; it does not normalise: the squared norm of the quaternion drops
    by [e1^2 + e2^2]. *)
Theorem Force2D_planar (A : ChCoordsys) :
  planar (Force2D A) /\
  Force2D (Force2D A) = Force2D A /\
  Qlength2 (rot (Force2D A))
  = Qlength2 (rot A) - (e1 (rot A) * e1 (rot A) + e2 (rot A) * e2 (rot A)).
Proof.
  repeat split. unfold Qlength2, Force2D; simpl. ring.
Qed.

(** X13: planar poses are closed under composition, and a planar pose maps
    the plane [z = 0] into itself. *)
Theorem planar_closed (A B : ChCoordsys) (a b : R) :
  planar A -> planar B ->
  planar (TransformLocalToParent A B) /\
  z (Point.TransformLocalToParent A (Vector a b 0)) = 0.
Proof.
  destruct A as [[pa1 pa2 pa3] [a0 a1 a2 a3]].
  destruct B as [[pb1 pb2 pb3] [b0 b1 b2 b3]].
  unfold planar; simpl. intros (-> & -> & ->) (-> & -> & ->).
  unfold_algebra. repeat split; ring.
Qed.

Lemma planar_closed_witness :
  planar (TransformLocalToParent (Force2D csys_sample1) (Force2D csys_sample3)).
Proof.
  apply (planar_closed (Force2D csys_sample1) (Force2D csys_sample3) 0 0);
    unfold planar; simpl; repeat split.
Defined.

(** * Cycle *)

Lemma Cycle_steps_safe (n : Z) :
  Cycle_safe n -> Cycle_steps n = Some (n mod 3)%Z.
Proof.
  unfold Cycle_safe, Cycle_steps, in_int, INT_MIN, INT_MAX. intros Hn.
  destruct (Z.ltb_spec n 0) as [Hneg | Hpos].
  - assert (H1 : ((-2147483648 <=? 3 * n) && (3 * n <=? 2147483647) = true)%Z)
      by (apply andb_true_iff; split; apply Z.leb_le; lia).
    assert (H2 : ((-2147483648 <=? n - 3 * n)
                  && (n - 3 * n <=? 2147483647) = true)%Z)
      by (apply andb_true_iff; split; apply Z.leb_le; lia).
    rewrite H1, H2. cbn [andb]. f_equal.
    rewrite Z.rem_mod_nonneg by lia.
    replace (n - 3 * n)%Z with (n + (- n) * 3)%Z by lia.
    apply Z.mod_add. lia.
  - f_equal. apply Z.rem_mod_nonneg; lia.
Qed.

(** The effect of [Cycle] in terms of the residue of [n] modulo 3. *)
Lemma Cycle_safe_eq (A : ChCoordsys) (n : Z) :
  Cycle_safe n ->
  Cycle A n
  = Some (Coordsys (pos A)
            (let r := rot A in
             if (n mod 3 =? 1)%Z then Quaternion (e0 r) (e3 r) (e1 r) (e2 r)
             else if (n mod 3 =? 2)%Z then Quaternion (e0 r) (e2 r) (e3 r) (e1 r)
             else r)).
Proof.
  intros Hn. unfold Cycle. rewrite (Cycle_steps_safe n Hn).
  destruct (Z.eqb_spec (n mod 3) 1) as [E1 | E1].
  - rewrite E1. reflexivity.
  - destruct (Z.eqb_spec (n mod 3) 2); reflexivity.
Qed.

(** X14: [Cycle(n)] depends on [n] modulo 3 only, for negative [n] as well
    as for positive ones (as long as [3 * n] fits in an [int]): [Cycle(-1)]
    is [Cycle(2)], and a multiple of 3 acts as [Cycle(0)], which changes
    nothing. *)
Theorem Cycle_mod_3 (A : ChCoordsys) (n m : Z) :
  Cycle_safe n -> Cycle_safe m -> (n mod 3 = m mod 3)%Z ->
  Cycle A n = Cycle A m /\ Cycle A 0 = Some A.
Proof.
  intros Hn Hm E. rewrite (Cycle_safe_eq A n Hn), (Cycle_safe_eq A m Hm), E.
  split; [reflexivity |].
  unfold Cycle; simpl. now rewrite csys_eta.
Qed.

Lemma Cycle_mod_3_witness :
  Cycle csys_sample3 (-1) = Cycle csys_sample3 2.
Proof.
  apply (Cycle_mod_3 csys_sample3 (-1) 2);
    unfold Cycle_safe, INT_MAX; try lia; reflexivity.
Defined.

(** X15: cycling by [n] and then by [m] is cycling by [n + m]; in
    particular [Cycle(-n)] undoes [Cycle(n)]. *)
Theorem Cycle_compose (A B C : ChCoordsys) (n m : Z) :
  Cycle_safe n -> Cycle_safe m -> Cycle_safe (n + m) ->
  Cycle A n = Some B -> Cycle B m = Some C ->
  Cycle A (n + m) = Some C.
Proof.
  intros Hn Hm Hnm. destruct A as [p [q0 q1 q2 q3]].
  rewrite (Cycle_safe_eq _ n Hn), (Cycle_safe_eq B m Hm),
    (Cycle_safe_eq _ (n + m) Hnm).
  intros [= <-] [= <-]. simpl.
  rewrite Z.add_mod by lia.
  assert (Rn : (0 <= n mod 3 < 3)%Z) by (apply Z.mod_pos_bound; lia).
  assert (Rm : (0 <= m mod 3 < 3)%Z) by (apply Z.mod_pos_bound; lia).
  assert (Cn : (n mod 3 = 0 \/ n mod 3 = 1 \/ n mod 3 = 2)%Z) by lia.
  assert (Cm : (m mod 3 = 0 \/ m mod 3 = 1 \/ m mod 3 = 2)%Z) by lia.
  destruct Cn as [-> | [-> | ->]], Cm as [-> | [-> | ->]];
    reflexivity.
Qed.

Lemma Cycle_compose_witness :
  Cycle csys_sample3 1 = Some (Coordsys (Vector 1 5 1) (Quaternion 0 (4/5) (3/5) 0)) /\
  Cycle csys_sample3 (1 + -1) = Some csys_sample3.
Proof.
  split; [reflexivity |].
  apply (Cycle_compose csys_sample3
           (Coordsys (Vector 1 5 1) (Quaternion 0 (4/5) (3/5) 0))
           csys_sample3 1 (-1));
    unfold Cycle_safe, INT_MAX; try lia; reflexivity.
Defined.

(** X16: [Cycle] permutes the three components of the vector part: it keeps
    the position, the scalar part and the norm of the quaternion. *)
Theorem Cycle_keeps_norm (A B : ChCoordsys) (n : Z) :
  Cycle A n = Some B ->
  pos B = pos A /\ e0 (rot B) = e0 (rot A) /\
  Qlength2 (rot B) = Qlength2 (rot A).
Proof.
  unfold Cycle. destruct (Cycle_steps n) as [steps |]; [| discriminate].
  intros [= <-]. simpl.
  destruct (steps =? 1)%Z, (steps =? 2)%Z; simpl;
    repeat split; unfold Qlength2; simpl; ring.
Qed.

Lemma Cycle_keeps_norm_witness :
  Qlength2 (Quaternion 0 (4/5) (3/5) 0) = Qlength2 (rot csys_sample3).
Proof.
  apply (Cycle_keeps_norm csys_sample3
           (Coordsys (Vector 1 5 1) (Quaternion 0 (4/5) (3/5) 0)) 1).
  reflexivity.
Defined.

(** * getMaxIdx *)

(** X17: [getMaxIdx] returns the position (0, 1 or 2) of a largest
    argument, and the first such position: every argument before it is
    strictly smaller. *)
Theorem getMaxIdx_first_max (x0 x1 x2 : R) :
  let i := getMaxIdx x0 x1 x2 in
  (i < 3)%nat /\
  (forall j : nat, arg3 x0 x1 x2 j <= arg3 x0 x1 x2 i) /\
  (forall j : nat, (j < i)%nat -> arg3 x0 x1 x2 j < arg3 x0 x1 x2 i).
Proof.
  unfold getMaxIdx.
  destruct (Rgeb x0 x1) eqn:H01, (Rgeb x0 x2) eqn:H02, (Rgeb x1 x2) eqn:H12;
    simpl; rewrite ?Rgeb_true, ?Rgeb_false in *;
    (split; [lia |]); split; intros j;
    try (destruct j as [| [| [| j]]]; simpl; intros; try lia; lra).
Qed.

(** * Further properties of the construction from a triad *)

Lemma sqrt_ge_1 (r : R) : 1 <= r -> 1 <= sqrt r.
Proof. intros Hr. rewrite <- sqrt_1. apply sqrt_le_1; lra. Qed.

Section TriadDivisor.

Variable Rm : nat -> nat -> R.
Variable e_init : Rarray.

Local Abbreviation R00 := (Rm 0%nat 0%nat).
Local Abbreviation R11 := (Rm 1%nat 1%nat).
Local Abbreviation R22 := (Rm 2%nat 2%nat).

(** X18: whatever the matrix, the divisor [s] of the conversion is at least
    2 (the radicand is at least 1 in both branches, the pivot being a
    largest diagonal entry), and the component that receives [s / 4] is at
    least 1/2: the conversion never divides by zero. *)
Theorem triad_divisor_bound :
  2 <= triad_s Rm /\
  (triad_slot Rm < 4)%nat /\
  triad_e Rm e_init (triad_slot Rm) = triad_s Rm / 4 /\
  1 / 2 <= triad_e Rm e_init (triad_slot Rm).
Proof.
  assert (Hs : 2 <= triad_s Rm).
  { unfold triad_s.
    destruct (Rgeb _ 0) eqn:Htr.
    - apply Rgeb_true in Htr.
      pose proof (sqrt_ge_1 (1 + (R00 + R11 + R22))). lra.
    - apply Rgeb_false in Htr.
      destruct (getMaxIdx_cases R00 R11 R22)
        as [(-> & Ha & Hb) | [(-> & Ha & Hb) | (-> & Ha & Hb)]]; simpl.
      + pose proof (sqrt_ge_1 (1 + R00 - R11 - R22)). lra.
      + pose proof (sqrt_ge_1 (1 + R11 - R22 - R00)). lra.
      + pose proof (sqrt_ge_1 (1 + R22 - R00 - R11)). lra. }
  assert (He : (triad_slot Rm < 4)%nat /\
               triad_e Rm e_init (triad_slot Rm) = triad_s Rm / 4).
  { unfold triad_slot, triad_e, triad_s.
    destruct (Rgeb _ 0) eqn:Htr.
    - split; [lia | reflexivity].
    - destruct (getMaxIdx_cases R00 R11 R22)
        as [(-> & _) | [(-> & _) | (-> & _)]]; split; (lia || reflexivity). }
  destruct He as [Hlt He]. repeat split; trivial.
  rewrite He. lra.
Qed.

End TriadDivisor.

(** ** Invariance of the constructed orientation *)

Lemma Vsub_Vadd_same (a b t : ChVector) : Vsub (Vadd a t) (Vadd b t) = Vsub a b.
Proof. componentwise. Qed.

Lemma Vmul_Vmul (k l : R) (v : ChVector) : Vmul k (Vmul l v) = Vmul (k * l) v.
Proof. componentwise. Qed.

Lemma Vcross_Vmul_r (k : R) (a b : ChVector) :
  Vcross a (Vmul k b) = Vmul k (Vcross a b).
Proof. componentwise. Qed.

Lemma Vcross_self (a : ChVector) : Vcross a a = VNULL.
Proof. unfold VNULL; componentwise. Qed.

Lemma Vcross_Vadd_r (a b c : ChVector) :
  Vcross a (Vadd b c) = Vadd (Vcross a b) (Vcross a c).
Proof. componentwise. Qed.

Lemma Vmul_VNULL (k : R) : Vmul k VNULL = VNULL.
Proof. unfold VNULL; componentwise. Qed.

(** A positive factor does not change the normalised vector. *)
Lemma Normalize_Vmul (k : R) (v : ChVector) :
  0 < k -> v <> VNULL -> Normalize (Vmul k v) = Normalize v.
Proof.
  intros Hk Hv. pose proof (Length_pos v Hv) as HL.
  assert (E : Length (Vmul k v) = k * Length v).
  { unfold Length. rewrite Length2_Vmul.
    rewrite sqrt_mult by (try apply Length2_nonneg; nra).
    now rewrite sqrt_square by lra. }
  unfold Normalize. rewrite E, Vmul_Vmul. f_equal. field. lra.
Qed.

(** X19: the orientation depends on the directions only.  Moving the three
    points by the same vector moves the pose and keeps its orientation;
    under the precondition, moving [xdir] along its ray from the origin (by
    a factor [k > 0]) and replacing [ydir - origin] by any
    [l * (xdir - origin) + m * (ydir - origin)] with [m > 0] (another point
    of the same half of the x-y plane) keep the orientation. *)
Theorem triad_orientation_invariant (origin xdir ydir t : ChVector) (k l m : R) :
  triad_pre origin xdir ydir -> 0 < k -> 0 < m ->
  ChCoordsys_triad (Vadd origin t) (Vadd xdir t) (Vadd ydir t)
  = Coordsys (Vadd origin t) (rot (ChCoordsys_triad origin xdir ydir)) /\
  rot (ChCoordsys_triad origin
         (Vadd origin (Vmul k (Vsub xdir origin)))
         (Vadd origin (Vadd (Vmul l (Vsub xdir origin))
                            (Vmul m (Vsub ydir origin)))))
  = rot (ChCoordsys_triad origin xdir ydir).
Proof.
  intros [Hx Hxy] Hk Hm. split.
  - unfold ChCoordsys_triad, triad_uy, triad_uz, triad_ux.
    now rewrite !Vsub_Vadd_same.
  - assert (Ex : triad_ux origin (Vadd origin (Vmul k (Vsub xdir origin)))
                 = triad_ux origin xdir).
    { unfold triad_ux. rewrite Vsub_Vadd_cancel.
      now apply Normalize_Vmul. }
    assert (Hc : Vcross (triad_ux origin xdir) (Vsub ydir origin) <> VNULL).
    { unfold triad_ux, Normalize. rewrite Vcross_Vmul_l.
      apply Vmul_nonzero; trivial.
      apply Rgt_not_eq. apply Rdiv_lt_0_compat; [lra | now apply Length_pos]. }
    assert (Ez : triad_uz origin (Vadd origin (Vmul k (Vsub xdir origin)))
                   (Vadd origin (Vadd (Vmul l (Vsub xdir origin))
                                      (Vmul m (Vsub ydir origin))))
                 = triad_uz origin xdir ydir).
    { unfold triad_uz. rewrite Ex.
      rewrite Vsub_Vadd_cancel.
      rewrite Vcross_Vadd_r, !Vcross_Vmul_r.
      replace (Vcross (triad_ux origin xdir) (Vsub xdir origin)) with VNULL.
      - rewrite Vmul_VNULL, Vadd_VNULL_l. now apply Normalize_Vmul.
      - unfold triad_ux, Normalize.
        now rewrite Vcross_Vmul_l, Vcross_self, Vmul_VNULL. }
    unfold ChCoordsys_triad, triad_uy. now rewrite Ex, Ez.
Qed.

Lemma triad_orientation_invariant_witness :
  triad_pre VNULL (Vector 1 0 0) (Vector 0 1 0) /\
  rot (ChCoordsys_triad VNULL
         (Vadd VNULL (Vmul 2 (Vsub (Vector 1 0 0) VNULL)))
         (Vadd VNULL (Vadd (Vmul (-1) (Vsub (Vector 1 0 0) VNULL))
                           (Vmul 1 (Vsub (Vector 0 1 0) VNULL)))))
  = rot (ChCoordsys_triad VNULL (Vector 1 0 0) (Vector 0 1 0)).
Proof.
  assert (H : triad_pre VNULL (Vector 1 0 0) (Vector 0 1 0)).
  { split; unfold Vcross, Vsub; simpl; apply Vector_neq_VNULL.
    - left; lra.
    - right; right; lra. }
  split; trivial.
  apply (triad_orientation_invariant VNULL (Vector 1 0 0) (Vector 0 1 0)
           VNULL 2 (-1) 1 H); lra.
Defined.

(** * Further properties of the disc-terrain contact *)

(** ** The lowest point of the disc *)

Lemma sinTilt2_eq (n : ChVector) :
  Length2 (Vcross n (Vector 0 0 1)) = x n * x n + y n * y n.
Proof. unfold Length2, Vdot, Vcross; simpl; ring. Qed.

Lemma lowest_point_offset (c n : ChVector) (r : R) :
  0 < Length2 (Vcross n (Vector 0 0 1)) ->
  Vsub (disc_lowest_point c n r) c
  = let s := sqrt (Length2 (Vcross n (Vector 0 0 1))) in
    Vector (r * (z n * x n / s)) (r * (z n * y n / s)) (- (r * s)).
Proof.
  intros Hs. cbv zeta.
  pose proof (sqrt_lt_R0 _ Hs) as Hpos.
  pose proof (sqrt_sqrt _ (Rlt_le _ _ Hs)) as Hsq.
  rewrite sinTilt2_eq in *.
  set (s := sqrt (x n * x n + y n * y n)) in *.
  unfold disc_lowest_point. rewrite sinTilt2_eq. fold s.
  unfold Vsub, Vadd, Vmul, Vcross, Vdiv; simpl.
  f_equal; try (field; lra).
  replace (r * s) with (r * (s * s) / s) by (field; lra).
  rewrite Hsq. field; lra.
Qed.

Lemma lowest_point_on_rim (c n : ChVector) (r : R) :
  0 < Length2 (Vcross n (Vector 0 0 1)) ->
  Vdot (Vsub (disc_lowest_point c n r) c) n = 0 /\
  Length2 (Vsub (disc_lowest_point c n r) c) = r * r * Length2 n /\
  z (disc_lowest_point c n r)
  = z c - r * sqrt (Length2 (Vcross n (Vector 0 0 1))).
Proof.
  intros Hs.
  pose proof (lowest_point_offset c n r Hs) as E. cbv zeta in E.
  pose proof (sqrt_lt_R0 _ Hs) as Hpos.
  pose proof (sqrt_sqrt _ (Rlt_le _ _ Hs)) as Hsq.
  rewrite sinTilt2_eq in *.
  set (s := sqrt (x n * x n + y n * y n)) in *.
  split; [| split].
  - rewrite E. unfold Vdot; simpl.
    replace (r * (z n * x n / s) * x n + r * (z n * y n / s) * y n
             + - (r * s) * z n)
      with (r * z n * ((x n * x n + y n * y n) - s * s) / s) by (field; lra).
    rewrite Hsq. field; nra.
  - rewrite E. unfold Length2, Vdot; simpl.
    replace (r * (z n * x n / s) * (r * (z n * x n / s))
             + r * (z n * y n / s) * (r * (z n * y n / s))
             + - (r * s) * - (r * s))
      with (r * r * (z n * z n * (x n * x n + y n * y n) / (s * s) + s * s))
      by (field; lra).
    rewrite Hsq. field. nra.
  - apply (f_equal z) in E.
    change (z (disc_lowest_point c n r) - z c = - (r * s)) in E. lra.
Qed.

(** No point of the disc is lower. *)
Lemma lowest_point_is_lowest (c n p : ChVector) (r : R) :
  0 < Length2 (Vcross n (Vector 0 0 1)) -> Length2 n = 1 -> 0 <= r ->
  Vdot (Vsub p c) n = 0 -> Length2 (Vsub p c) <= r * r ->
  z (disc_lowest_point c n r) <= z p.
Proof.
  intros Hs Hn Hr Hplane Hdist.
  destruct (lowest_point_on_rim c n r Hs) as (_ & _ & Hz).
  enough (z c - r * sqrt (Length2 (Vcross n (Vector 0 0 1))) <= z p) by lra.
  clear Hz.
  pose proof (sqrt_lt_R0 _ Hs) as Hpos.
  pose proof (sqrt_sqrt _ (Rlt_le _ _ Hs)) as Hsq.
  rewrite sinTilt2_eq in *.
  set (s := sqrt (x n * x n + y n * y n)) in *.
  destruct n as [n1 n2 n3], p as [p1 p2 p3], c as [c1 c2 c3].
  unfold Length2, Vdot, Vsub in *; simpl in *.
  set (w1 := p1 - c1) in *. set (w2 := p2 - c2) in *. set (w3 := p3 - c3) in *.
  assert (Ew3 : w3 = p3 - c3) by reflexivity.
  clearbody w1 w2 w3.
  assert (Hw : w3 * w3 <= (r * s) * (r * s)).
  { assert (E3 : w3 * n3 = - (w1 * n1 + w2 * n2)) by lra.
    assert (E : w3 * w3 * (n3 * n3) = (w1 * n1 + w2 * n2) * (w1 * n1 + w2 * n2))
      by (rewrite <- (Ropp_involutive (w1 * n1 + w2 * n2)), <- E3; ring).
    assert (CS : (w1 * n1 + w2 * n2) * (w1 * n1 + w2 * n2)
                 <= (w1 * w1 + w2 * w2) * (n1 * n1 + n2 * n2)).
    { pose proof (Rle_0_sqr (w1 * n2 - w2 * n1)) as Hq. unfold Rsqr in Hq.
      nra. }
    assert (M : (w1 * w1 + w2 * w2) * (n1 * n1 + n2 * n2)
                <= (r * r - w3 * w3) * (n1 * n1 + n2 * n2))
      by (apply Rmult_le_compat_r; lra).
    replace (r * s * (r * s)) with (r * r * (s * s)) by ring.
    rewrite Hsq.
    assert (H3 : w3 * w3 * (n3 * n3)
                 = w3 * w3 - w3 * w3 * (n1 * n1 + n2 * n2))
      by (replace (n3 * n3) with (1 - (n1 * n1 + n2 * n2)) by lra; ring).
    lra. }
  assert (Hrs : 0 <= r * s) by (apply Rmult_le_pos; lra).
  assert (- (r * s) <= w3) by nra.
  lra.
Qed.

Section DiscTerrainContactGeometry.

Variable A_axis_quaternion : ChVector -> ChVector -> ChVector -> ChQuaternion.
Variable NDEBUG : bool.

(** What a [return true] tells. *)
Lemma contact_true_inv (terrain : ChTerrain) (c n : ChVector) (r : R)
      (contact : ChCoordsys) (depth : R) (contact' : ChCoordsys) (depth' : R) :
  disc_terrain_contact A_axis_quaternion NDEBUG terrain c n r contact depth
  = Returned true contact' depth' ->
  let hc := GetHeight terrain (x c) (y c) in
  let ptD := disc_lowest_point c n r in
  let hp := GetHeight terrain (x ptD) (y ptD) in
  (hc < z c < hc + r) /\
  1 / 1000 <= Length2 (Vcross n (Vector 0 0 1)) /\
  pos contact' = ptD /\
  z ptD <= hp /\
  depth' = (hp - z ptD) * z (GetNormal terrain (x ptD) (y ptD)).
Proof.
  unfold disc_terrain_contact. fold (disc_lowest_point c n r).
  destruct (Rleb _ _ || Rgeb _ _) eqn:Hrange; [discriminate |].
  destruct (Rltb _ _) eqn:Htilt; [discriminate |].
  destruct (Rgtb _ _) eqn:Hlow; [discriminate |].
  intros H. apply assert_Returned in H. injection H as <- <-.
  apply orb_false_iff in Hrange. destruct Hrange as [H1 H2].
  apply Rleb_false in H1. apply Rgeb_false in H2.
  apply Rltb_false in Htilt. apply Rgtb_false in Hlow.
  cbv zeta. repeat split; trivial.
  unfold Vdot; simpl. ring.
Qed.

(** X20: when a contact is reported for a disc with unit normal, the
    contact point is on the rim of the disc: in the plane of the disc, at
    distance [disc_radius] from the centre, and [disc_radius] times the sine
    of the tilt below the centre. *)
Theorem contact_point_on_rim (terrain : ChTerrain) (c n : ChVector) (r : R)
        (contact : ChCoordsys) (depth : R) (contact' : ChCoordsys) (depth' : R) :
  disc_terrain_contact A_axis_quaternion NDEBUG terrain c n r contact depth
  = Returned true contact' depth' ->
  Length2 n = 1 ->
  Vdot (Vsub (pos contact') c) n = 0 /\
  Length2 (Vsub (pos contact') c) = r * r /\
  z (pos contact') = z c - r * sqrt (x n * x n + y n * y n).
Proof.
  intros H Hn. apply contact_true_inv in H. cbv zeta in H.
  destruct H as (_ & Htilt & -> & _).
  assert (Hs : 0 < Length2 (Vcross n (Vector 0 0 1))) by lra.
  destruct (lowest_point_on_rim c n r Hs) as (H1 & H2 & H3).
  rewrite H2, H3, Hn, sinTilt2_eq. repeat split; trivial. ring.
Qed.

(** X21: the contact point is a lowest point of the disc: no point of the
    plane of the disc within [disc_radius] of the centre is below it. *)
Theorem contact_point_lowest (terrain : ChTerrain) (c n : ChVector) (r : R)
        (contact : ChCoordsys) (depth : R) (contact' : ChCoordsys) (depth' : R)
        (p : ChVector) :
  disc_terrain_contact A_axis_quaternion NDEBUG terrain c n r contact depth
  = Returned true contact' depth' ->
  Length2 n = 1 ->
  Vdot (Vsub p c) n = 0 -> Length2 (Vsub p c) <= r * r ->
  z (pos contact') <= z p.
Proof.
  intros H Hn Hplane Hdist. apply contact_true_inv in H. cbv zeta in H.
  destruct H as (Hrange & Htilt & -> & _).
  apply lowest_point_is_lowest; trivial; lra.
Qed.

(** X22: a contact is reported only for a positive radius, a centre
    strictly above the terrain and less than a radius above it, and a disc
    whose squared sine of tilt is at least 1e-3; the contact point is then
    strictly below the centre, and not above the terrain. *)
Theorem contact_only_in_range (terrain : ChTerrain) (c n : ChVector) (r : R)
        (contact : ChCoordsys) (depth : R) (contact' : ChCoordsys) (depth' : R) :
  disc_terrain_contact A_axis_quaternion NDEBUG terrain c n r contact depth
  = Returned true contact' depth' ->
  0 < r /\
  GetHeight terrain (x c) (y c) < z c < GetHeight terrain (x c) (y c) + r /\
  1 / 1000 <= x n * x n + y n * y n /\
  z (pos contact') < z c /\
  z (pos contact') <= GetHeight terrain (x (pos contact')) (y (pos contact')).
Proof.
  intros H. apply contact_true_inv in H. cbv zeta in H.
  destruct H as (Hrange & Htilt & -> & Hlow & _).
  assert (Hs : 0 < Length2 (Vcross n (Vector 0 0 1))) by lra.
  destruct (lowest_point_on_rim c n r Hs) as (_ & _ & H3).
  pose proof (sqrt_lt_R0 _ Hs) as Hpos.
  rewrite sinTilt2_eq in Htilt.
  repeat split; trivial; try lra.
  rewrite H3. assert (0 < r) by lra. nra.
Qed.

(** X23: the depth of a reported contact is the gap between the terrain
    and the contact point times the vertical component of the terrain
    normal.  Where that component is positive the depth is never negative,
    and it is zero exactly when the contact point lies on the terrain. *)
Theorem contact_depth_sign (terrain : ChTerrain) (c n : ChVector) (r : R)
        (contact : ChCoordsys) (depth : R) (contact' : ChCoordsys) (depth' : R) :
  disc_terrain_contact A_axis_quaternion NDEBUG terrain c n r contact depth
  = Returned true contact' depth' ->
  let ptD := pos contact' in
  let hp := GetHeight terrain (x ptD) (y ptD) in
  0 < z (GetNormal terrain (x ptD) (y ptD)) ->
  depth' = (hp - z ptD) * z (GetNormal terrain (x ptD) (y ptD)) /\
  0 <= depth' /\
  (depth' = 0 <-> z ptD = hp).
Proof.
  intros H. apply contact_true_inv in H. cbv zeta in H.
  destruct H as (_ & _ & E & Hlow & Hd). cbv zeta. rewrite E.
  intros Hz. rewrite Hd. repeat split; nra.
Qed.

End DiscTerrainContactGeometry.

(** A disc that digs into the flat terrain by 1. *)
Lemma penetrating_disc (ndebug : bool) (contact : ChCoordsys) (depth : R) :
  disc_terrain_contact (fun _ _ _ => QUNIT) ndebug flat_terrain (Vector 0 0 2)
    (Vector (3/5) 0 (4/5)) 5 contact depth
  = Returned true (Coordsys (Vector 4 0 (-1)) QUNIT) 1.
Proof.
  assert (Hdir : Vcross (Vector (3/5) 0 (4/5)) (Vector 0 0 1)
                 = Vector 0 (- (3/5)) 0)
    by (unfold Vcross; simpl; f_equal; field).
  assert (Hlen : Length2 (Vector 0 (- (3/5)) 0) = 9 / 25)
    by (unfold Length2, Vdot; simpl; field).
  assert (HptD : Vadd (Vector 0 0 2)
                   (Vmul 5 (Vcross (Vector (3/5) 0 (4/5))
                                   (Vdiv (Vector 0 (- (3/5)) 0) (3 / 5))))
                 = Vector 4 0 (-1))
    by (unfold Vadd, Vmul, Vcross, Vdiv; simpl; f_equal; field).
  assert (Hrange : Rleb 2 0 || Rgeb 2 (0 + 5) = false).
  { apply orb_false_iff. split; [apply Rleb_false | apply Rgeb_false]; lra. }
  assert (Htilt : Rltb (9 / 25) (1 / 1000) = false)
    by (apply Rltb_false; lra).
  assert (Hlow : Rgtb (-1) 0 = false) by (apply Rgtb_false; lra).
  assert (Hdepth : Vdot (Vector 0 0 (0 - -1)) (Vector 0 0 1) = 1)
    by (unfold Vdot; simpl; ring).
  assert (Hpos : Rgtb 1 0 = true) by (apply Rgtb_true; lra).
  unfold disc_terrain_contact, flat_terrain, assert.
  cbv zeta; cbn [GetHeight GetNormal x y z].
  rewrite Hdir, Hlen, sqrt_9_25, HptD, Hrange, Htilt.
  cbn [x y z]. rewrite Hdepth, Hlow, Hpos. now destruct ndebug.
Qed.

Lemma unit_normal_3_4 : Length2 (Vector (3/5) 0 (4/5)) = 1.
Proof. unfold Length2, Vdot; simpl; field. Qed.

Lemma contact_point_on_rim_witness :
  Length2 (Vsub (Vector 4 0 (-1)) (Vector 0 0 2)) = 5 * 5.
Proof.
  apply (contact_point_on_rim (fun _ _ _ => QUNIT) false flat_terrain
           (Vector 0 0 2) (Vector (3/5) 0 (4/5)) 5 csys_sample1 7
           (Coordsys (Vector 4 0 (-1)) QUNIT) 1
           (penetrating_disc false csys_sample1 7) unit_normal_3_4).
Defined.

Lemma contact_point_lowest_witness : -1 <= 5.
Proof.
  apply (contact_point_lowest (fun _ _ _ => QUNIT) false flat_terrain
           (Vector 0 0 2) (Vector (3/5) 0 (4/5)) 5 csys_sample1 7
           (Coordsys (Vector 4 0 (-1)) QUNIT) 1 (Vector (-4) 0 5)
           (penetrating_disc false csys_sample1 7) unit_normal_3_4);
    unfold Length2, Vdot, Vsub; simpl; lra.
Defined.

Lemma contact_only_in_range_witness : 0 < 5 /\ -1 < 2.
Proof.
  destruct (contact_only_in_range (fun _ _ _ => QUNIT) false flat_terrain
              (Vector 0 0 2) (Vector (3/5) 0 (4/5)) 5 csys_sample1 7
              (Coordsys (Vector 4 0 (-1)) QUNIT) 1
              (penetrating_disc false csys_sample1 7))
    as (Hr & _ & _ & Hz & _).
  split; [exact Hr | exact Hz].
Defined.

Lemma contact_depth_sign_witness : 0 <= 1.
Proof.
  assert (Hn : 0 < 1) by lra.
  destruct (contact_depth_sign (fun _ _ _ => QUNIT) false flat_terrain
              (Vector 0 0 2) (Vector (3/5) 0 (4/5)) 5 csys_sample1 7
              (Coordsys (Vector 4 0 (-1)) QUNIT) 1
              (penetrating_disc false csys_sample1 7) Hn)
    as (_ & Hd & _).
  exact Hd.
Defined.

(** ** The axes of the constructed orientation *)

Lemma Rotate_Qscale (k : R) (q : ChQuaternion) (v : ChVector) :
  Rotate (Qscale k q) v = Vmul (k * k) (Rotate q v).
Proof. unfold Qscale; componentwise. Qed.

Lemma Qscale_back (s : R) (q : ChQuaternion) :
  s <> 0 -> q = Qscale (1 / s) (Qscale s q).
Proof.
  intros Hs. destruct q. unfold Qscale; simpl. f_equal; field; trivial.
Qed.

Lemma Qscale_GetConjugate (k : R) (q : ChQuaternion) :
  GetConjugate (Qscale k q) = Qscale k (GetConjugate q).
Proof. unfold Qscale, GetConjugate; simpl. f_equal; ring. Qed.

Lemma divisor_sqr (u : R) :
  1 <= u -> sqrt u * 2 <> 0 /\ sqrt u * 2 * (sqrt u * 2) = 4 * u.
Proof.
  intros Hu. pose proof (sqrt_ge_1 u Hu). pose proof (sqrt_sqrt u).
  split; [lra | nra].
Qed.

(** From the quaternion multiplied by its divisor [s], with [s^2 = 4 u],
    back to the quaternion itself. *)
Lemma Rotate_unscale (s u : R) (q Qp : ChQuaternion) (v w : ChVector) :
  s <> 0 -> s * s = 4 * u -> Qscale s q = Qp ->
  Rotate Qp v = Vmul (4 * u) w -> Rotate q v = w.
Proof.
  intros Hs Hu Hq Hp.
  rewrite (Qscale_back s q Hs), Rotate_Qscale, Hq, Hp, Vmul_Vmul, <- Hu.
  replace (1 / s * (1 / s) * (s * s)) with 1 by (field; trivial).
  apply Vmul_1.
Qed.

Lemma RotateBack_unscale (s u : R) (q Qp : ChQuaternion) (v w : ChVector) :
  s <> 0 -> s * s = 4 * u -> Qscale s q = Qp ->
  RotateBack Qp v = Vmul (4 * u) w -> RotateBack q v = w.
Proof.
  intros Hs Hu Hq Hp. rewrite RotateBack_conj in *.
  apply (Rotate_unscale s u _ (GetConjugate Qp)); trivial.
  now rewrite <- Qscale_GetConjugate, Hq.
Qed.

Lemma Qscale_slots (s u c0 c1 c2 c3 : R) :
  s <> 0 -> s * s = 4 * u ->
  Qscale s (Quaternion (s / 4) (c1 / s) (c2 / s) (c3 / s)) = Quaternion u c1 c2 c3 /\
  Qscale s (Quaternion (c0 / s) (s / 4) (c2 / s) (c3 / s)) = Quaternion c0 u c2 c3 /\
  Qscale s (Quaternion (c0 / s) (c1 / s) (s / 4) (c3 / s)) = Quaternion c0 c1 u c3 /\
  Qscale s (Quaternion (c0 / s) (c1 / s) (c2 / s) (s / 4)) = Quaternion c0 c1 c2 u.
Proof.
  intros Hs Hu.
  assert (E : s * (s / 4) = u)
    by (replace (s * (s / 4)) with (s * s / 4) by field; rewrite Hu; field).
  unfold Qscale; simpl. rewrite E.
  repeat split; f_equal; field; trivial.
Qed.

Section RotationPolynomials.

Variables a b c d e f : R.

Hypothesis Hux : a * a + b * b + c * c = 1.
Hypothesis Huz : d * d + e * e + f * f = 1.
Hypothesis Hzx : d * a + e * b + f * c = 0.

Local Abbreviation ux := (Vector a b c).
Local Abbreviation uz := (Vector d e f).
Local Abbreviation uy := (Vcross (Vector d e f) (Vector a b c)).
Local Abbreviation Rm := (Rmat ux uy uz).

Ltac polynomial_identities :=
  cbv zeta; unfold Rmat; unfold_algebra; repeat split; f_equal; nsatz.

Lemma axes_polynomial_trace_nonneg :
  let u := 1 + (Rm 0 0 + Rm 1 1 + Rm 2 2) in
  let Qp := Quaternion u (Rm 1 2 - Rm 2 1) (Rm 2 0 - Rm 0 2)
                       (Rm 0 1 - Rm 1 0) in
  RotateBack Qp (Vector 1 0 0) = Vmul (4 * u) ux /\
  RotateBack Qp (Vector 0 1 0) = Vmul (4 * u) uy /\
  RotateBack Qp (Vector 0 0 1) = Vmul (4 * u) uz.
Proof. polynomial_identities. Qed.

Lemma axes_polynomial_pivot_0 :
  let u := (1 + Rm 0 0 - Rm 1 1 - Rm 2 2) in
  let Qp := Quaternion (Rm 2 1 - Rm 1 2) u (Rm 0 1 + Rm 1 0)
                       (Rm 0 2 + Rm 2 0) in
  Rotate Qp (Vector 1 0 0) = Vmul (4 * u) ux /\
  Rotate Qp (Vector 0 1 0) = Vmul (4 * u) uy /\
  Rotate Qp (Vector 0 0 1) = Vmul (4 * u) uz.
Proof. polynomial_identities. Qed.

Lemma axes_polynomial_pivot_1 :
  let u := (1 + Rm 1 1 - Rm 2 2 - Rm 0 0) in
  let Qp := Quaternion (Rm 0 2 - Rm 2 0) (Rm 1 0 + Rm 0 1) u
                       (Rm 1 2 + Rm 2 1) in
  Rotate Qp (Vector 1 0 0) = Vmul (4 * u) ux /\
  Rotate Qp (Vector 0 1 0) = Vmul (4 * u) uy /\
  Rotate Qp (Vector 0 0 1) = Vmul (4 * u) uz.
Proof. polynomial_identities. Qed.

Lemma axes_polynomial_pivot_2 :
  let u := (1 + Rm 2 2 - Rm 0 0 - Rm 1 1) in
  let Qp := Quaternion (Rm 1 0 - Rm 0 1) (Rm 2 0 + Rm 0 2)
                       (Rm 2 1 + Rm 1 2) u in
  Rotate Qp (Vector 1 0 0) = Vmul (4 * u) ux /\
  Rotate Qp (Vector 0 1 0) = Vmul (4 * u) uy /\
  Rotate Qp (Vector 0 0 1) = Vmul (4 * u) uz.
Proof. polynomial_identities. Qed.

End RotationPolynomials.

Section TriadAxes.

Variables a b c d e f : R.
Variable e_init : Rarray.

Hypothesis H1 : a * a + b * b + c * c = 1.
Hypothesis H2 : d * d + e * e + f * f = 1.
Hypothesis H3 : d * a + e * b + f * c = 0.

Local Abbreviation ux := (Vector a b c).
Local Abbreviation uz := (Vector d e f).
Local Abbreviation uy := (Vcross (Vector d e f) (Vector a b c)).
Local Abbreviation Rm := (Rmat ux uy uz).
Local Abbreviation q := (Qof (triad_e (Rmat ux uy uz) e_init)).

Lemma axes_trace_nonneg :
  Rm 0 0 + Rm 1 1 + Rm 2 2 >= 0 ->
  RotateBack q (Vector 1 0 0) = ux /\
  RotateBack q (Vector 0 1 0) = uy /\
  RotateBack q (Vector 0 0 1) = uz.
Proof.
  intros Htr. rewrite (triad_e_trace_nonneg _ e_init Htr). cbv zeta.
  destruct (axes_polynomial_trace_nonneg a b c d e f H1 H2 H3) as (P1 & P2 & P3).
  cbv zeta in P1, P2, P3.
  set (u := 1 + (Rm 0 0 + Rm 1 1 + Rm 2 2)) in *.
  destruct (divisor_sqr u) as [Hs0 Hs2]; [unfold u; lra |].
  set (s := sqrt u * 2) in *.
  destruct (Qscale_slots s u 0 (Rm 1 2 - Rm 2 1) (Rm 2 0 - Rm 0 2)
              (Rm 0 1 - Rm 1 0) Hs0 Hs2) as (E & _).
  repeat split;
    apply (RotateBack_unscale s u _ _ _ _ Hs0 Hs2 E); assumption.
Qed.

Lemma axes_trace_neg :
  Rm 0 0 + Rm 1 1 + Rm 2 2 < 0 ->
  Rotate q (Vector 1 0 0) = ux /\
  Rotate q (Vector 0 1 0) = uy /\
  Rotate q (Vector 0 0 1) = uz.
Proof.
  intros Htr.
  destruct (getMaxIdx_cases (Rm 0 0) (Rm 1 1) (Rm 2 2))
    as [(Hi & Ha & Hb) | [(Hi & Ha & Hb) | (Hi & Ha & Hb)]].
  - rewrite (triad_e_pivot_0 _ e_init Htr Hi). cbv zeta.
    destruct (axes_polynomial_pivot_0 a b c d e f H1 H2 H3) as (P1 & P2 & P3).
    cbv zeta in P1, P2, P3.
    set (u := 1 + Rm 0 0 - Rm 1 1 - Rm 2 2) in *.
    destruct (divisor_sqr u) as [Hs0 Hs2]; [unfold u; lra |].
    set (s := sqrt u * 2) in *.
    destruct (Qscale_slots s u (Rm 2 1 - Rm 1 2) 0 (Rm 0 1 + Rm 1 0)
                (Rm 0 2 + Rm 2 0) Hs0 Hs2) as (_ & E & _).
    repeat split;
      apply (Rotate_unscale s u _ _ _ _ Hs0 Hs2 E); assumption.
  - rewrite (triad_e_pivot_1 _ e_init Htr Hi). cbv zeta.
    destruct (axes_polynomial_pivot_1 a b c d e f H1 H2 H3) as (P1 & P2 & P3).
    cbv zeta in P1, P2, P3.
    set (u := 1 + Rm 1 1 - Rm 2 2 - Rm 0 0) in *.
    destruct (divisor_sqr u) as [Hs0 Hs2]; [unfold u; lra |].
    set (s := sqrt u * 2) in *.
    destruct (Qscale_slots s u (Rm 0 2 - Rm 2 0) (Rm 1 0 + Rm 0 1) 0
                (Rm 1 2 + Rm 2 1) Hs0 Hs2) as (_ & _ & E & _).
    repeat split;
      apply (Rotate_unscale s u _ _ _ _ Hs0 Hs2 E); assumption.
  - rewrite (triad_e_pivot_2 _ e_init Htr Hi). cbv zeta.
    destruct (axes_polynomial_pivot_2 a b c d e f H1 H2 H3) as (P1 & P2 & P3).
    cbv zeta in P1, P2, P3.
    set (u := 1 + Rm 2 2 - Rm 0 0 - Rm 1 1) in *.
    destruct (divisor_sqr u) as [Hs0 Hs2]; [unfold u; lra |].
    set (s := sqrt u * 2) in *.
    destruct (Qscale_slots s u (Rm 1 0 - Rm 0 1) (Rm 2 0 + Rm 0 2)
                (Rm 2 1 + Rm 1 2) 0 Hs0 Hs2) as (_ & _ & _ & E).
    repeat split;
      apply (Rotate_unscale s u _ _ _ _ Hs0 Hs2 E); assumption.
Qed.

End TriadAxes.

Lemma rotation_columns_equations (ux uy uz : ChVector) :
  rotation_columns ux uy uz ->
  exists a b c d e f : R,
    ux = Vector a b c /\ uz = Vector d e f /\
    uy = Vcross (Vector d e f) (Vector a b c) /\
    a * a + b * b + c * c = 1 /\ d * d + e * e + f * f = 1 /\
    d * a + e * b + f * c = 0.
Proof.
  intros (H1 & H2 & H3 & H4).
  destruct ux as [a b c], uz as [d e f].
  exists a, b, c, d, e, f. repeat split; trivial.
Qed.

Lemma rotation_axes_trace_nonneg (ux uy uz : ChVector) (e_init : Rarray) :
  rotation_columns ux uy uz ->
  Rmat ux uy uz 0 0 + Rmat ux uy uz 1 1 + Rmat ux uy uz 2 2 >= 0 ->
  RotateBack (Qof (triad_e (Rmat ux uy uz) e_init)) (Vector 1 0 0) = ux /\
  RotateBack (Qof (triad_e (Rmat ux uy uz) e_init)) (Vector 0 1 0) = uy /\
  RotateBack (Qof (triad_e (Rmat ux uy uz) e_init)) (Vector 0 0 1) = uz.
Proof.
  intros Hcols.
  destruct (rotation_columns_equations _ _ _ Hcols)
    as (a & b & c & d & e & f & -> & -> & -> & H1 & H2 & H3).
  now apply axes_trace_nonneg.
Qed.

Lemma rotation_axes_trace_neg (ux uy uz : ChVector) (e_init : Rarray) :
  rotation_columns ux uy uz ->
  Rmat ux uy uz 0 0 + Rmat ux uy uz 1 1 + Rmat ux uy uz 2 2 < 0 ->
  Rotate (Qof (triad_e (Rmat ux uy uz) e_init)) (Vector 1 0 0) = ux /\
  Rotate (Qof (triad_e (Rmat ux uy uz) e_init)) (Vector 0 1 0) = uy /\
  Rotate (Qof (triad_e (Rmat ux uy uz) e_init)) (Vector 0 0 1) = uz.
Proof.
  intros Hcols.
  destruct (rotation_columns_equations _ _ _ Hcols)
    as (a & b & c & d & e & f & -> & -> & -> & H1 & H2 & H3).
  now apply axes_trace_neg.
Qed.

(** X24: under the precondition, when [trace < 0] (the pivot branch) the
    orientation of the constructed pose takes the local axes to the
    directions of the triad: the local x axis to the unit vector from
    [origin] towards [xdir], the local y and z axes to [uy] and [uz]. *)
Theorem triad_axes_pivot_branch (origin xdir ydir : ChVector) :
  triad_pre origin xdir ydir -> triad_trace origin xdir ydir < 0 ->
  let A := ChCoordsys_triad origin xdir ydir in
  TransformDirectionLocalToParent A (Vector 1 0 0) = triad_ux origin xdir /\
  TransformDirectionLocalToParent A (Vector 0 1 0) = triad_uy origin xdir ydir /\
  TransformDirectionLocalToParent A (Vector 0 0 1) = triad_uz origin xdir ydir.
Proof.
  intros Hpre Htr A. unfold A, TransformDirectionLocalToParent.
  rewrite rot_ChCoordsys_triad.
  apply (rotation_axes_trace_neg _ _ _ _ (triad_rotation_columns _ _ _ Hpre) Htr).
Qed.

(** X25: when [trace >= 0] it is the transformation from the parent to the
    local frame that takes the coordinate axes to the directions of the
    triad: the orientation is the conjugate of the rotation of the pivot
    branch, and the transformation from local to parent takes the
    directions of the triad to the coordinate axes. *)
Theorem triad_axes_trace_nonneg (origin xdir ydir : ChVector) :
  triad_pre origin xdir ydir -> triad_trace origin xdir ydir >= 0 ->
  let A := ChCoordsys_triad origin xdir ydir in
  (TransformDirectionParentToLocal A (Vector 1 0 0) = triad_ux origin xdir /\
   TransformDirectionParentToLocal A (Vector 0 1 0) = triad_uy origin xdir ydir /\
   TransformDirectionParentToLocal A (Vector 0 0 1) = triad_uz origin xdir ydir) /\
  (TransformDirectionLocalToParent A (triad_ux origin xdir) = Vector 1 0 0 /\
   TransformDirectionLocalToParent A (triad_uy origin xdir ydir) = Vector 0 1 0 /\
   TransformDirectionLocalToParent A (triad_uz origin xdir ydir) = Vector 0 0 1).
Proof.
  intros Hpre Htr A.
  pose proof (triad_rotation_columns _ _ _ Hpre) as Hcols.
  assert (Hq : Qunit (rot A)).
  { unfold A. rewrite rot_ChCoordsys_triad. apply triad_e_unit.
    now apply rotation_columns_matrix. }
  assert (H : TransformDirectionParentToLocal A (Vector 1 0 0)
              = triad_ux origin xdir /\
              TransformDirectionParentToLocal A (Vector 0 1 0)
              = triad_uy origin xdir ydir /\
              TransformDirectionParentToLocal A (Vector 0 0 1)
              = triad_uz origin xdir ydir).
  { unfold A, TransformDirectionParentToLocal. rewrite rot_ChCoordsys_triad.
    apply (rotation_axes_trace_nonneg _ _ _ _ Hcols Htr). }
  split; [exact H |].
  destruct H as (H1 & H2 & H3). rewrite <- H1, <- H2, <- H3.
  unfold TransformDirectionLocalToParent, TransformDirectionParentToLocal.
  now rewrite !(Rotate_RotateBack _ _ Hq).
Qed.

Lemma triad_axes_pivot_branch_witness :
  triad_trace VNULL (Vector 1 0 0) (Vector 0 (-1) 0) < 0 /\
  TransformDirectionLocalToParent
    (ChCoordsys_triad VNULL (Vector 1 0 0) (Vector 0 (-1) 0)) (Vector 1 0 0)
  = triad_ux VNULL (Vector 1 0 0).
Proof.
  assert (Hpre : triad_pre VNULL (Vector 1 0 0) (Vector 0 (-1) 0)).
  { split; unfold Vcross, Vsub; simpl; apply Vector_neq_VNULL.
    - left; lra.
    - right; right; lra. }
  assert (Htr : triad_trace VNULL (Vector 1 0 0) (Vector 0 (-1) 0) < 0).
  { unfold triad_trace. rewrite triad_R_half_turn_x. simpl. lra. }
  split; trivial.
  apply (triad_axes_pivot_branch VNULL (Vector 1 0 0) (Vector 0 (-1) 0) Hpre Htr).
Defined.

Lemma triad_axes_trace_nonneg_witness :
  triad_trace VNULL (Vector 0 1 0) (Vector (-1) 0 0) >= 0 /\
  TransformDirectionParentToLocal
    (ChCoordsys_triad VNULL (Vector 0 1 0) (Vector (-1) 0 0)) (Vector 1 0 0)
  = triad_ux VNULL (Vector 0 1 0).
Proof.
  assert (Hpre : triad_pre VNULL (Vector 0 1 0) (Vector (-1) 0 0)).
  { split; unfold Vcross, Vsub; simpl; apply Vector_neq_VNULL.
    - right; left; lra.
    - right; right; lra. }
  assert (Htr : triad_trace VNULL (Vector 0 1 0) (Vector (-1) 0 0) >= 0).
  { unfold triad_trace. rewrite triad_R_quarter_turn. simpl. lra. }
  split; trivial.
  apply (triad_axes_trace_nonneg VNULL (Vector 0 1 0) (Vector (-1) 0 0) Hpre Htr).
Defined.

(** ** The tilt guard and the assertion *)

(** X26: a disc within the tolerance of the horizontal (squared sine of
    the tilt, [nx^2 + ny^2], below 1e-3) is never in contact, whatever the
    terrain, the centre and the radius; the two outputs are left as they
    were. *)
Theorem near_horizontal_no_contact
        (A_axis_quaternion : ChVector -> ChVector -> ChVector -> ChQuaternion)
        (NDEBUG : bool) (terrain : ChTerrain) (c n : ChVector) (r : R)
        (contact : ChCoordsys) (depth : R) :
  x n * x n + y n * y n < 1 / 1000 ->
  disc_terrain_contact A_axis_quaternion NDEBUG terrain c n r contact depth
  = Returned false contact depth.
Proof.
  intros Htilt. unfold disc_terrain_contact.
  destruct (Rleb _ _ || Rgeb _ _); [reflexivity |].
  rewrite <- sinTilt2_eq in Htilt. apply Rltb_true in Htilt.
  now rewrite Htilt.
Qed.

Lemma near_horizontal_no_contact_witness :
  disc_terrain_contact (fun _ _ _ => QUNIT) false flat_terrain (Vector 0 0 (1/2))
    (Vector (1/100) (2/100) 1) 1 csys_sample1 7
  = Returned false csys_sample1 7.
Proof.
  apply (near_horizontal_no_contact (fun _ _ _ => QUNIT) false flat_terrain
           (Vector 0 0 (1/2)) (Vector (1/100) (2/100) 1) 1 csys_sample1 7).
  simpl. lra.
Defined.

(** X27: when assertions are compiled in, the call ends in the failure of
    [assert(depth > 0)] exactly when the three early exits are passed (centre
    in range, tilt above the tolerance, lowest point not above the terrain)
    and the depth computed is not positive; with NDEBUG it never does. *)
Theorem assertion_fails_iff
        (A_axis_quaternion : ChVector -> ChVector -> ChVector -> ChQuaternion)
        (terrain : ChTerrain) (c n : ChVector) (r : R)
        (contact : ChCoordsys) (depth : R) :
  let hc := GetHeight terrain (x c) (y c) in
  let ptD := disc_lowest_point c n r in
  let hp := GetHeight terrain (x ptD) (y ptD) in
  (disc_terrain_contact A_axis_quaternion false terrain c n r contact depth
   = Aborted <->
   (hc < z c < hc + r) /\ 1 / 1000 <= x n * x n + y n * y n /\ z ptD <= hp /\
   (hp - z ptD) * z (GetNormal terrain (x ptD) (y ptD)) <= 0) /\
  disc_terrain_contact A_axis_quaternion true terrain c n r contact depth
  <> Aborted.
Proof.
  cbv zeta. unfold disc_terrain_contact, assert. cbv zeta.
  set (ptD := disc_lowest_point c n r).
  change (Vadd c (Vmul r (Vcross n
            (Vdiv (Vcross n (Vector 0 0 1))
                  (sqrt (Length2 (Vcross n (Vector 0 0 1))))))))
    with ptD.
  rewrite sinTilt2_eq.
  assert (Ed : Vdot (Vector 0 0 (GetHeight terrain (x ptD) (y ptD) - z ptD))
                    (GetNormal terrain (x ptD) (y ptD))
               = (GetHeight terrain (x ptD) (y ptD) - z ptD)
                 * z (GetNormal terrain (x ptD) (y ptD)))
    by (unfold Vdot; simpl; ring).
  rewrite Ed.
  destruct (Rleb _ _) eqn:G1; [apply Rleb_true in G1 | apply Rleb_false in G1];
    cbn [orb].
  { split; [split; [discriminate | intros (? & _); lra] | discriminate]. }
  destruct (Rgeb _ _) eqn:G2; [apply Rgeb_true in G2 | apply Rgeb_false in G2].
  { split; [split; [discriminate | intros (? & _); lra] | discriminate]. }
  destruct (Rltb _ _) eqn:G3; [apply Rltb_true in G3 | apply Rltb_false in G3].
  { split; [split; [discriminate | intros (_ & ? & _); lra] | discriminate]. }
  destruct (Rgtb (z ptD) _) eqn:G4;
    [apply Rgtb_true in G4 | apply Rgtb_false in G4].
  { split; [split; [discriminate | intros (_ & _ & ? & _); lra] | discriminate]. }
  destruct (Rgtb _ 0) eqn:G5; [apply Rgtb_true in G5 | apply Rgtb_false in G5].
  - split; [split; [discriminate | intros (_ & _ & _ & ?); lra] | discriminate].
  - split; [split; [intros _; repeat split; lra | reflexivity] | discriminate].
Qed.

(** * The branch [trace >= 0] on a quarter turn *)

(** C3: the code evaluated where it departs from the claim.  For the triad
    origin = 0, xdir = (0,1,0), ydir = (-1,0,0) (a quarter turn about the
    vertical, [trace = 1 >= 0]) the constructor yields
    [e3 = (R01 - R10)/s = -1/sqrt 2], where the formula of the claim gives
    [e3 = (R10 - R01)/s = 1/sqrt 2].  The quaternion of the claim takes the
    local x axis to [ux = (0,1,0)], as the comment of the constructor and
    the pivot branch have it; the quaternion of the code takes it to
    [(0,-1,0)]. *)
Theorem triad_quarter_turn_conjugate :
  let A := ChCoordsys_triad VNULL (Vector 0 1 0) (Vector (-1) 0 0) in
  let Rm := triad_R VNULL (Vector 0 1 0) (Vector (-1) 0 0) in
  triad_pre VNULL (Vector 0 1 0) (Vector (-1) 0 0) /\
  triad_trace VNULL (Vector 0 1 0) (Vector (-1) 0 0) >= 0 /\
  triad_ux VNULL (Vector 0 1 0) = Vector 0 1 0 /\
  e3 (rot A) = - (1 / sqrt 2) /\
  e3 (spec_trace_nonneg Rm) = 1 / sqrt 2 /\
  rot A <> spec_trace_nonneg Rm /\
  TransformDirectionLocalToParent A (Vector 1 0 0) = Vector 0 (-1) 0 /\
  Rotate (spec_trace_nonneg Rm) (Vector 1 0 0) = Vector 0 1 0.
Proof.
  intros A Rm.
  assert (Hpre : triad_pre VNULL (Vector 0 1 0) (Vector (-1) 0 0)).
  { split; unfold Vcross, Vsub; simpl; apply Vector_neq_VNULL.
    - right; left; lra.
    - right; right; lra. }
  assert (Htr : triad_trace VNULL (Vector 0 1 0) (Vector (-1) 0 0) >= 0).
  { unfold triad_trace. rewrite triad_R_quarter_turn. simpl. lra. }
  assert (Hux : triad_ux VNULL (Vector 0 1 0) = Vector 0 1 0).
  { unfold triad_ux. rewrite Normalize_unit.
    - unfold Vsub; simpl. f_equal; ring.
    - unfold Length2, Vdot, Vsub; simpl. ring. }
  destruct (divisor_sqr 2) as [Hs0 Hs2]; [lra |].
  assert (Hr : 0 < sqrt 2) by (apply sqrt_lt_R0; lra).
  assert (Ecode : rot A
                  = Quaternion (sqrt 2 * 2 / 4) (0 / (sqrt 2 * 2))
                      (0 / (sqrt 2 * 2)) (-2 / (sqrt 2 * 2))).
  { unfold A. rewrite rot_ChCoordsys_triad.
    rewrite (triad_e_trace_nonneg _ _ Htr), triad_R_quarter_turn.
    cbv zeta; simpl.
    replace (1 + (0 + 0 + 1)) with 2 by ring.
    replace (0 - 0) with 0 by ring. replace (-1 - 1) with (-2) by ring.
    reflexivity. }
  assert (Espec : spec_trace_nonneg Rm
                  = Quaternion (sqrt 2 * 2 / 4) (0 / (sqrt 2 * 2))
                      (0 / (sqrt 2 * 2)) (2 / (sqrt 2 * 2))).
  { unfold Rm, spec_trace_nonneg. rewrite triad_R_quarter_turn.
    cbv zeta; simpl.
    replace (1 + (0 + 0 + 1)) with 2 by ring.
    rewrite (Rmult_comm 2 (sqrt 2)).
    replace (0 - 0) with 0 by ring. replace (1 - -1) with 2 by ring.
    reflexivity. }
  assert (E3code : e3 (rot A) = - (1 / sqrt 2))
    by (rewrite Ecode; simpl; field; lra).
  assert (E3spec : e3 (spec_trace_nonneg Rm) = 1 / sqrt 2)
    by (rewrite Espec; simpl; field; lra).
  assert (Hinv : 0 < 1 / sqrt 2) by (apply Rdiv_lt_0_compat; lra).
  split; [exact Hpre |]. split; [exact Htr |]. split; [exact Hux |].
  split; [exact E3code |]. split; [exact E3spec |]. split; [| split].
  - intros E. apply (f_equal e3) in E. rewrite E3code, E3spec in E. lra.
  - unfold TransformDirectionLocalToParent. rewrite Ecode.
    destruct (Qscale_slots (sqrt 2 * 2) 2 0 0 0 (-2) Hs0 Hs2) as (E & _).
    apply (Rotate_unscale (sqrt 2 * 2) 2 _ _ _ _ Hs0 Hs2 E).
    componentwise.
  - rewrite Espec.
    destruct (Qscale_slots (sqrt 2 * 2) 2 0 0 0 2 Hs0 Hs2) as (E & _).
    apply (Rotate_unscale (sqrt 2 * 2) 2 _ _ _ _ Hs0 Hs2 E).
    componentwise.
Qed.
